(** * normalize-daz: a shallow embedding of the archive normaliser

    The program of [normalize-daz.py] works on directory trees only: it
    unpacks archives into a scratch directory, looks for the directory that
    holds the DAZ content folders and copies it to the output directory.
    This file embeds the directory tree, the path operations of [pathlib]
    the script relies on, and the functions of the script, and proves the
    properties of the specification about them.

    What the embedding takes from the libraries the script calls:
    - names are byte strings and [str.lower] acts on ASCII letters;
    - a directory lists its entries in a fixed order, and there are no
      symbolic links;
    - the input directory, the output directory and the scratch
      directories of [tempfile.mkdtemp] are apart from each other;
    - an archive file is the list of its members, which the decoder of
      its format writes in order, and maybe an error the decoder raises
      after them;
    - of the mode of a file the embedding keeps whether the file is
      read-only.  The program runs under the rules of POSIX and not as
      superuser: a read-only file cannot be opened for writing, and it
      can be removed.  [zipfile] writes every member with
      the default mode, [rarfile] and [py7zr] restore the mode a member
      was packed with, and [shutil.copy2] copies the mode with the bytes;
    - directories carry no mode: no directory is read-only, entries can
      be added to and removed from every directory, and removing a file
      or a scratch directory does not fail for want of a permission;
    - [print] adds a line to the console, kept as a list of events;
    - an exception is the message it carries, and a loop that does not
      end is a run that exhausts every bound on its passes. *)

From Stdlib Require Import List String Ascii Bool Arith Lia.
Import ListNotations.
Open Scope string_scope.
Open Scope list_scope.
Open Scope nat_scope.

Set Implicit Arguments.

(** ** Names, suffixes and lower-casing *)

Module PathName.

(** [str.lower()] restricted to ASCII: the letters [A]-[Z] are mapped
    to [a]-[z], every other byte is left alone. *)
Definition lower_ascii (c : ascii) : ascii :=
  let n := nat_of_ascii c in
  if (65 <=? n) && (n <=? 90) then ascii_of_nat (n + 32) else c.

Fixpoint lower (s : string) : string :=
  match s with
  | EmptyString => EmptyString
  | String c r => String (lower_ascii c) (lower r)
  end.

(** [name.rfind('.')]: the index of the last dot, if there is one. *)
Fixpoint rfind_dot (s : string) : option nat :=
  match s with
  | EmptyString => None
  | String c r =>
      match rfind_dot r with
      | Some i => Some (S i)
      | None => if Ascii.eqb c "."%char then Some 0 else None
      end
  end.

(** [PurePath.suffix]: [name[i:]] when [0 < i < len(name) - 1] for the
    index [i] of the last dot, and the empty string otherwise. *)
Definition suffix (name : string) : string :=
  match rfind_dot name with
  | Some i =>
      if (0 <? i) && (i <? String.length name - 1)
      then substring i (String.length name - i) name
      else ""
  | None => ""
  end.

(** [PurePath.stem]: the name without its suffix. *)
Definition stem (name : string) : string :=
  match rfind_dot name with
  | Some i =>
      if (0 <? i) && (i <? String.length name - 1)
      then substring 0 i name
      else name
  | None => name
  end.

Definition mem (s : string) (l : list string) : bool :=
  existsb (String.eqb s) l.

End PathName.
Import PathName.

(** ** Configuration *)

Definition DAZ_FOLDERS : list string :=
  ["data"; "People"; "Props"; "Runtime"; "Environments"; "Scenes"].
Definition PROMO_EXTS : list string :=
  [".jpg"; ".jpeg"; ".png"; ".gif"; ".pdf"; ".txt"; ".doc"; ".docx"; ".rtf"].
Definition ARCHIVE_EXTS : list string := [".zip"; ".rar"; ".7z"].

(** ** Directory trees *)

Inductive format := Zip | Rar | SevenZ.

(** A directory is the list of its entries in the order [os.scandir]
    reports them.  A file is its mode, of which only the read-only bit
    is kept, and its bytes.  The bytes are either opaque data or an
    archive of some format: the members the decoder can unpack, and the
    error the decoder raises after unpacking them, if the archive is
    damaged. *)
Unset Elimination Schemes.
Inductive node :=
| File (c : content)
| Dir (es : list (string * node))
with content :=
| Content (mode_read_only : bool) (b : bytes)
with bytes :=
| Raw (data : string)
| Packed (fmt : format) (members : list (string * node)) (fault : option string).
Set Elimination Schemes.

Definition entries := list (string * node).
Definition path := list string.

Definition read_only (c : content) : bool :=
  match c with Content ro _ => ro end.

Definition bytes_of (c : content) : bytes :=
  match c with Content _ b => b end.

(** A file with the default mode, which lets its owner write.  Bytes
    stand for such a file wherever a file is expected. *)
Definition plain (b : bytes) : content := Content false b.
Coercion plain : bytes >-> content.

Definition is_dir (x : node) : bool :=
  match x with Dir _ => true | File _ => false end.

Definition is_file (x : node) : bool :=
  match x with File _ => true | Dir _ => false end.

Section Listing.

Fixpoint lookup (n : string) (es : entries) : option node :=
  match es with
  | [] => None
  | (m, x) :: r => if String.eqb n m then Some x else lookup n r
  end.

(** Writing [x] under the name [n]: an existing entry is replaced where
    it stands, a new one is added at the end of the listing. *)
Fixpoint set (n : string) (x : node) (es : entries) : entries :=
  match es with
  | [] => [(n, x)]
  | (m, y) :: r => if String.eqb n m then (m, x) :: r else (m, y) :: set n x r
  end.

Fixpoint remove (n : string) (es : entries) : entries :=
  match es with
  | [] => []
  | (m, y) :: r => if String.eqb n m then r else (m, y) :: remove n r
  end.

(** The node a relative path leads to; the empty path is the root. *)
Fixpoint node_at (p : path) (x : node) : option node :=
  match p with
  | [] => Some x
  | n :: q =>
      match x with
      | Dir es =>
          match lookup n es with
          | Some y => node_at q y
          | None => None
          end
      | File _ => None
      end
  end.

(** Applying [g] to the listing of the directory at [p]; nothing
    happens when [p] is not a directory. *)
Fixpoint update_at (p : path) (g : entries -> entries) (es : entries)
  : entries :=
  match p with
  | [] => g es
  | n :: q =>
      match lookup n es with
      | Some (Dir sub) => set n (Dir (update_at q g sub)) es
      | _ => es
      end
  end.

End Listing.

Definition parent (p : path) : path := removelast p.
Definition name_of (p : path) : string := last p "".

(** ** Iteration with exceptions

    [each_until step l s] runs [step] on the elements of [l] in order and
    stops at the first one that raises; [each_collect] goes on after an
    error and raises the first one at the end. *)

Section Iteration.

Variables (A S : Type).

Definition each_until (step : A -> S -> S * option string)
  : list A -> S -> S * option string :=
  fix go (l : list A) (s : S) : S * option string :=
    match l with
    | [] => (s, None)
    | a :: r =>
        match step a s with
        | (s', None) => go r s'
        | (s', Some e) => (s', Some e)
        end
    end.

Definition each_collect (step : A -> S -> S * option string)
  : list A -> S -> S * option string :=
  fix go (l : list A) (s : S) : S * option string :=
    match l with
    | [] => (s, None)
    | a :: r =>
        let '(s1, e1) := step a s in
        let '(s2, e2) := go r s1 in
        (s2, match e1 with Some _ => e1 | None => e2 end)
    end.

End Iteration.

(** ** The archive decoders

    [extractall] of [zipfile], [rarfile] and [py7zr]: the members are
    written below the destination in order.  A file member replaces a file
    of its name that can be written to, and cannot replace a read-only
    file or a directory; a directory member is created unless it is there
    and cannot replace a file.  The first error ends the extraction and
    leaves what was written before.  [keep_mode] says whether the decoder
    restores the mode of a member. *)

Definition written (keep_mode : bool) (c : content) : content :=
  if keep_mode then c else plain (bytes_of c).

Fixpoint write_member (keep_mode : bool) (x : node) (n : string)
  (dest : entries) : entries * option string :=
  match x with
  | File c =>
      match lookup n dest with
      | Some (Dir _) => (dest, Some "Is a directory")
      | Some (File c0) =>
          if read_only c0 then (dest, Some "Permission denied")
          else (set n (File (written keep_mode c)) dest, None)
      | None => (set n (File (written keep_mode c)) dest, None)
      end
  | Dir ms =>
      match lookup n dest with
      | Some (File _) => (dest, Some "File exists")
      | old =>
          let sub := match old with Some (Dir es) => es | _ => [] end in
          let '(sub', e) :=
            each_until (fun '(m, y) => write_member keep_mode y m) ms sub in
          (set n (Dir sub') dest, e)
      end
  end.

Definition extractall (keep_mode : bool) (members : entries) (dest : entries)
  : entries * option string :=
  each_until (fun '(m, y) => write_member keep_mode y m) members dest.

(** A member as it is on disk once it is written where nothing was. *)
Fixpoint as_written (keep_mode : bool) (x : node) : node :=
  match x with
  | File c => File (written keep_mode c)
  | Dir es => Dir (map (fun '(n, y) => (n, as_written keep_mode y)) es)
  end.

(** [shutil.copytree(item, dest, dirs_exist_ok=True)] and
    [shutil.copy2(item, dest)], where [dest] is the entry [n] of the
    listing [dst].  [copy2] opens the destination for writing, which a
    read-only file refuses, and then copies the bytes and the mode;
    onto a directory it writes the file inside it under the same base
    name.  [copytree] creates [dest] unless it is a directory already,
    goes on after an error below it and raises at the end when there was
    one. *)

Definition copy2 (c : content) (n : string) (dst : entries)
  : entries * option string :=
  match lookup n dst with
  | Some (Dir sub) =>
      match lookup n sub with
      | Some (Dir _) => (dst, Some "Is a directory")
      | Some (File c0) =>
          if read_only c0 then (dst, Some "Permission denied")
          else (set n (Dir (set n (File c) sub)) dst, None)
      | None => (set n (Dir (set n (File c) sub)) dst, None)
      end
  | Some (File c0) =>
      if read_only c0 then (dst, Some "Permission denied")
      else (set n (File c) dst, None)
  | None => (set n (File c) dst, None)
  end.

Fixpoint copy_entry (x : node) (n : string) (dst : entries)
  : entries * option string :=
  match x with
  | File c => copy2 c n dst
  | Dir ms =>
      match lookup n dst with
      | Some (File _) => (dst, Some "File exists")
      | old =>
          let sub := match old with Some (Dir es) => es | _ => [] end in
          let '(sub', e) :=
            each_collect (fun '(m, y) => copy_entry y m) ms sub in
          (set n (Dir sub') dst, e)
      end
  end.

(** [Path.mkdir(parents=True, exist_ok=True)] for the entry [n] of [dst]. *)
Definition mkdir (n : string) (dst : entries) : entries * option string :=
  match lookup n dst with
  | Some (File _) => (dst, Some "File exists")
  | Some (Dir _) => (dst, None)
  | None => (set n (Dir []) dst, None)
  end.

(** The listing of the directory at [p] ([Path.iterdir]). *)
Definition dir_at (p : path) (root : entries) : entries :=
  match node_at p (Dir root) with
  | Some (Dir es) => es
  | _ => []
  end.

(** [Path.unlink(missing_ok=True)]: removing a file is writing to its
    directory, whatever the mode of the file. *)
Definition unlink (p : path) (root : entries) : entries * option string :=
  match node_at p (Dir root) with
  | Some (File _) => (update_at (parent p) (remove (name_of p)) root, None)
  | Some (Dir _) => (root, Some "Is a directory")
  | None => (root, None)
  end.

(** Every directory of [x] is a directory of [y]. *)
Definition keeps_dirs (x y : node) : Prop :=
  forall p sub, node_at p x = Some (Dir sub) ->
           exists sub', node_at p y = Some (Dir sub').

(** A tree is well formed when no directory has two entries of the same
    name. *)
Fixpoint wf_node (x : node) : bool :=
  match x with
  | File _ => true
  | Dir es =>
      (fix go (l : entries) : bool :=
         match l with
         | [] => true
         | (n, y) :: r => negb (mem n (map fst r)) && wf_node y && go r
         end) es
  end.

Definition wf (es : entries) : bool := wf_node (Dir es).

(** Archives nested in archives: each level is one archive file that
    holds the next level, and the innermost holds [payload]. *)
Fixpoint chain (levels : list (string * format)) (payload : entries)
  : entries :=
  match levels with
  | [] => payload
  | (n, f) :: r => [(n, File (Packed f (chain r payload) None))]
  end.

(** ** What the program prints *)

Inductive event :=
| SkipUnsupported (archive_path : path)
| ExtractFailed (archive_path : path) (e : string)
| NoMoreArchives (iteration : nat)
| PassFound (iteration : nat) (count : nat)
| ExtractingNested (archive : path)
| NestedFailed (archive : path) (e : string)
| Processing (name : string)
| ContentsAfterFirst (names : list string)
| FoundRoot (daz_root : path)
| NoRootDetected
| NoDazFolder (name : string)
| KeepingTemp (tempdir : nat)
| Merged (name : string)
| Normalized (name : string) (zip_name : string)
| Extracting (name : string)
| DetectedRoot (daz_root : path)
| NoArchivesFound
| AllDone.

(** ** Archive extraction helpers *)

Definition format_eqb (f g : format) : bool :=
  match f, g with
  | Zip, Zip | Rar, Rar | SevenZ, SevenZ => true
  | _, _ => false
  end.

Definition ext_of (f : format) : string :=
  match f with Zip => ".zip" | Rar => ".rar" | SevenZ => ".7z" end.

(** [zipfile] leaves the mode of what it writes to the system;
    [rarfile] and [py7zr] set the mode the member has in the archive. *)
Definition restores_mode (f : format) : bool :=
  match f with Zip => false | Rar | SevenZ => true end.

(** Opening [src] with the decoder of format [f] and extracting all its
    members into [dest]. *)
Definition decode (f : format) (src : option node) (dest : entries)
  : entries * option string :=
  match src with
  | None => (dest, Some "No such file or directory")
  | Some (Dir _) => (dest, Some "Is a directory")
  | Some (File (Content _ (Raw _))) =>
      (dest, Some "Not an archive of this format")
  | Some (File (Content _ (Packed g members fault))) =>
      if format_eqb f g then
        match extractall (restores_mode f) members dest with
        | (d, None) => (d, fault)
        | (d, Some e) => (d, Some e)
        end
      else (dest, Some "Not an archive of this format")
  end.

(** The [try] block of [extract_archive]: the destination and the
    console lines after it, and the exception it raised, if any. *)
Definition extract_archive_try (archive_path : path) (src : option node)
  (dest : entries) : (entries * list event) * option string :=
  let ext := lower (suffix (name_of archive_path)) in
  if String.eqb ext ".zip" then
    let '(d, e) := decode Zip src dest in ((d, []), e)
  else if String.eqb ext ".rar" then
    let '(d, e) := decode Rar src dest in ((d, []), e)
  else if String.eqb ext ".7z" then
    let '(d, e) := decode SevenZ src dest in ((d, []), e)
  else ((dest, [SkipUnsupported archive_path]), None).

(** [extract_archive]: [src] is what [archive_path] leads to. *)
Definition extract_archive (archive_path : path) (src : option node)
  (dest : entries) : (entries * list event) * option string :=
  match extract_archive_try archive_path src dest with
  | (r, None) => (r, None)
  | ((d, l), Some e) => ((d, l ++ [ExtractFailed archive_path e]), None)
  end.

(** [_iterate_directories] and [rglob("*")] of pathlib, in the order of
    CPython 3.11: the directories below and including the start in
    pre-order, and for each of them all its entries.  The paths are
    relative to the start. *)
Fixpoint iterate_directories (x : node) : list (path * entries) :=
  match x with
  | File _ => []
  | Dir es =>
      ([], es) ::
      flat_map (fun '(n, y) =>
                  map (fun '(p, d) => (n :: p, d)) (iterate_directories y)) es
  end.

Definition children (p : path) (d : entries) : list (path * node) :=
  map (fun '(n, y) => (p ++ [n], y)) d.

Definition rglob (root : entries) : list (path * node) :=
  flat_map (fun '(p, d) => children p d) (iterate_directories (Dir root)).

Definition is_archive_name (n : string) : bool :=
  mem (lower (suffix n)) ARCHIVE_EXTS.

Definition archives_under (root : entries) : list path :=
  map fst (filter (fun '(p, _) => is_archive_name (name_of p)) (rglob root)).

(** The body of the [for] loop of [extract_all_archives_recursively]. *)
Definition unpack_one (archive : path) (root : entries)
  : entries * list event :=
  let extract_to := parent archive in
  let '((d, l), e) :=
    extract_archive archive (node_at archive (Dir root))
      (dir_at extract_to root) in
  let root1 := update_at extract_to (fun _ => d) root in
  match e with
  | Some msg => (root1, ExtractingNested archive :: l ++ [NestedFailed archive msg])
  | None =>
      match unlink archive root1 with
      | (root2, None) => (root2, ExtractingNested archive :: l)
      | (root2, Some msg) =>
          (root2, ExtractingNested archive :: l ++ [NestedFailed archive msg])
      end
  end.

Fixpoint unpack_pass (archives : list path) (root : entries)
  : entries * list event :=
  match archives with
  | [] => (root, [])
  | a :: r =>
      let '(root1, l1) := unpack_one a root in
      let '(root2, l2) := unpack_pass r root1 in
      (root2, l1 ++ l2)
  end.

(** The [while True] loop; [fuel] bounds the number of passes that find
    archives, and [None] says that the bound was reached. *)
Fixpoint extract_all_archives_recursively (fuel : nat) (root : entries)
  (iteration : nat) : option (entries * list event) :=
  let archives := archives_under root in
  match archives with
  | [] => Some (root, [NoMoreArchives iteration])
  | _ :: _ =>
      match fuel with
      | 0 => None
      | S fuel' =>
          let '(root1, l1) := unpack_pass archives root in
          match extract_all_archives_recursively fuel' root1 (S iteration) with
          | Some (root2, l2) =>
              Some (root2, PassFound iteration (List.length archives) :: l1 ++ l2)
          | None => None
          end
      end
  end.

(** ** DAZ root finder *)

Definition daz_folders : list string := map lower DAZ_FOLDERS.

(** [{p.name.lower() for p in d.iterdir() if p.is_dir()}] *)
Definition subdir_names (d : entries) : list string :=
  map (fun '(n, _) => lower n) (filter (fun '(_, x) => is_dir x) d).

(** [daz_folders.intersection(subdirs)] is not empty. *)
Definition has_daz_folder (d : entries) : bool :=
  existsb (fun f => mem f (subdir_names d)) daz_folders.

Fixpoint first_daz_dir (l : list (path * node)) : option path :=
  match l with
  | [] => None
  | (p, Dir sub) :: r => if has_daz_folder sub then Some p else first_daz_dir r
  | (_, File _) :: r => first_daz_dir r
  end.

Definition find_daz_root (root : entries) : option path :=
  if has_daz_folder root then Some []
  else first_daz_dir (rglob root).

(** A directory qualifies as content root when one of its immediate
    subdirectories has, in lower case, the name of a known content
    folder. *)
Definition qualifies (d : entries) : Prop :=
  exists n sub, In (n, Dir sub) d /\ In (lower n) (map lower DAZ_FOLDERS).

Definition none_qualify (l : list (path * node)) : Prop :=
  forall q d, In (q, Dir d) l -> ~ qualifies d.

(** Three content roots: [m/z] is less deep than the other two, and its
    branch is neither the first nor the last of the root. *)
Definition three_roots_tree : entries :=
  [("a", Dir [("b", Dir [("c", Dir [("People", Dir [])])])]);
   ("m", Dir [("z", Dir [("Runtime", Dir [])])]);
   ("y", Dir [("b", Dir [("c", Dir [("People", Dir [])])])])].

(** ** Copy + normalize *)

Definition is_promo_name (n : string) : bool :=
  mem (lower (suffix n)) PROMO_EXTS.

Definition copy_daz_root (source_root : entries) (output_dir : entries)
  (include_promos : bool) : entries * option string :=
  each_until
    (fun '(n, item) out =>
       if negb include_promos && is_promo_name n then (out, None)
       else copy_entry item n out)
    source_root output_dir.

(** ** Main processing logic *)

(** The output directory, the scratch directories that are on disk, the
    number of the next scratch directory, and the console.  A scratch
    directory belongs to one run of [process_archive] only, so the run
    holds its listing and records it here when it leaves it behind. *)
Record world := World {
  output_dir : entries;
  scratch : list (nat * entries);
  next_tmp : nat;
  console : list event
}.

Definition mkdtemp (w : world) : nat * world :=
  (next_tmp w,
   World (output_dir w) (scratch w) (S (next_tmp w)) (console w)).

Definition print (l : list event) (w : world) : world :=
  World (output_dir w) (scratch w) (next_tmp w) (console w ++ l).

Definition leave (tmp : nat) (tempdir : entries) (w : world) : world :=
  World (output_dir w) (scratch w ++ [(tmp, tempdir)]) (next_tmp w) (console w).

Definition with_output (out : entries) (w : world) : world :=
  World out (scratch w) (next_tmp w) (console w).

(** A run ends with a world and the exception that ended it, if any;
    [None] is a run whose unpacking loop does not end. *)
Definition outcome := option (world * option string).

(** The members of the zip that [shutil.make_archive] writes for a
    directory: for every directory of the walk, its subdirectories sorted
    by name and then its files as they are listed. *)
Fixpoint insert_by_name (e : string * node) (l : entries) : entries :=
  match l with
  | [] => [e]
  | e' :: r =>
      if String.leb (fst e) (fst e') then e :: l else e' :: insert_by_name e r
  end.

Definition sorted_by_name (l : entries) : entries :=
  fold_right insert_by_name [] l.

Fixpoint zip_member (x : node) : node :=
  match x with
  | File c => File c
  | Dir es =>
      let ms := map (fun '(n, y) => (n, zip_member y)) es in
      Dir (sorted_by_name (filter (fun '(_, y) => is_dir y) ms)
           ++ filter (fun '(_, y) => is_file y) ms)
  end.

Definition zip_members (d : entries) : entries :=
  match zip_member (Dir d) with Dir ms => ms | File _ => [] end.

(** [shutil.make_archive(str(cleaned_dir), "zip", cleaned_dir)]: the zip
    is opened for writing beside the directory. *)
Definition make_archive (cleaned : string) (out : entries)
  : entries * option string :=
  let zip_name := (cleaned ++ ".zip")%string in
  let zipped :=
    set zip_name (File (Packed Zip (zip_members (dir_at [cleaned] out)) None))
      out in
  match lookup zip_name out with
  | Some (Dir _) => (out, Some "Is a directory")
  | Some (File c0) =>
      if read_only c0 then (out, Some "Permission denied") else (zipped, None)
  | None => (zipped, None)
  end.

Section Orchestrator.

Variables (fuel : nat) (archive_name : string) (archive : node).
Variables (include_promos keep_temp merge_into_content : bool).

(** [extract_archive(archive_path, tempdir)] and
    [extract_all_archives_recursively(tempdir)] on a fresh [tempdir];
    [between] is what is printed in between. *)
Definition unpacked (between : entries -> list event)
  : option ((entries * list event) * option string) :=
  match extract_archive [archive_name] (Some archive) [] with
  | ((t1, l1), Some e) => Some ((t1, l1), Some e)
  | ((t1, l1), None) =>
      match extract_all_archives_recursively fuel t1 0 with
      | None => None
      | Some (t2, l2) => Some ((t2, l1 ++ between t1 ++ l2), None)
      end
  end.

(** The [if merge_into_content: ... else: ...] of each block. *)
Definition place (daz_root : entries) (out : entries)
  : (entries * list event) * option string :=
  let target :=
    if merge_into_content then "Content"
    else (stem archive_name ++ "_normalized")%string in
  match mkdir target out with
  | (out1, Some e) => ((out1, []), Some e)
  | (out1, None) =>
      match copy_daz_root daz_root (dir_at [target] out1) include_promos with
      | (d, Some e) => ((set target (Dir d) out1, []), Some e)
      | (d, None) =>
          let out2 := set target (Dir d) out1 in
          if merge_into_content then ((out2, [Merged archive_name]), None)
          else
            match make_archive target out2 with
            | (out3, Some e) => ((out3, []), Some e)
            | (out3, None) =>
                ((out3, [Normalized archive_name (target ++ ".zip")%string]), None)
            end
      end
  end.

(** From the root found to the removal of [tempdir], then [next].
    [shutil.rmtree(tempdir, ignore_errors=True)] takes the scratch
    directory off the disk: every directory below it can be written
    to. *)
Definition deliver (tmp : nat) (tempdir : entries) (daz_root : path)
  (w : world) (next : world -> outcome) : outcome :=
  match place (dir_at daz_root tempdir) (output_dir w) with
  | ((out, l), Some e) =>
      Some (leave tmp tempdir (print l (with_output out w)), Some e)
  | ((out, l), None) =>
      let w1 := print l (with_output out w) in
      next (if keep_temp then leave tmp tempdir w1 else w1)
  end.

(** [find_daz_root(sub)] for the directories of [l] in order. *)
Fixpoint first_root_below (l : list (path * node)) : option path :=
  match l with
  | [] => None
  | (p, Dir sub) :: r =>
      match find_daz_root sub with
      | Some q => Some (p ++ q)
      | None => first_root_below r
      end
  | (_, File _) :: r => first_root_below r
  end.

Definition or_else (a b : option path) : option path :=
  match a with Some _ => a | None => b end.

(** Lines 182 to 222. *)
Definition third_block (w0 : world) : outcome :=
  let '(tmp, w) := mkdtemp w0 in
  match unpacked (fun _ => []) with
  | None => None
  | Some ((tempdir, l), Some e) =>
      Some (leave tmp tempdir (print (Extracting archive_name :: l) w), Some e)
  | Some ((tempdir, l), None) =>
      let w1 := print (Extracting archive_name :: l) w in
      let found := find_daz_root tempdir in
      let w2 :=
        print [match found with
               | Some p => DetectedRoot p
               | None => NoRootDetected
               end] w1 in
      match or_else found
              (first_root_below (children [] (filter (fun '(_, x) => is_dir x) tempdir)))
      with
      | None =>
          let w3 := print [NoDazFolder archive_name] w2 in
          Some (if keep_temp then leave tmp tempdir w3 else w3, None)
      | Some daz_root =>
          deliver tmp tempdir daz_root w2 (fun w3 => Some (w3, None))
      end
  end.

(** Lines 145 to 180. *)
Definition second_block (w0 : world) : outcome :=
  let '(tmp, w) := mkdtemp w0 in
  match unpacked (fun _ => []) with
  | None => None
  | Some ((tempdir, l), Some e) =>
      Some (leave tmp tempdir (print (Extracting archive_name :: l) w), Some e)
  | Some ((tempdir, l), None) =>
      let w1 := print (Extracting archive_name :: l) w in
      match or_else (find_daz_root tempdir) (first_root_below (rglob tempdir))
      with
      | None =>
          let w2 := print [NoDazFolder archive_name] w1 in
          Some (if keep_temp then leave tmp tempdir w2 else w2, None)
      | Some daz_root => deliver tmp tempdir daz_root w1 third_block
      end
  end.

(** Lines 110 to 143, followed by the other two blocks. *)
Definition process_archive (w0 : world) : outcome :=
  let '(tmp, w) := mkdtemp w0 in
  match unpacked (fun t1 => [ContentsAfterFirst (map fst t1)]) with
  | None => None
  | Some ((tempdir, l), Some e) =>
      Some (leave tmp tempdir (print (Processing archive_name :: l) w), Some e)
  | Some ((tempdir, l), None) =>
      let w1 := print (Processing archive_name :: l) w in
      match find_daz_root tempdir with
      | None =>
          let w2 := print [NoRootDetected; NoDazFolder archive_name] w1 in
          Some (if keep_temp
                then leave tmp tempdir (print [KeepingTemp tmp] w2)
                else w2, None)
      | Some daz_root =>
          deliver tmp tempdir daz_root (print [FoundRoot daz_root] w1)
            second_block
      end
  end.

(** The per-archive sequence as section 4.5 of the specification has
    it: one scratch directory, extract, unpack, locate; without a root
    warn, keep or delete the scratch directory and stop; with one, copy
    in the mode asked for and delete the scratch directory unless it is
    to be kept. *)
Definition per_archive_sequence (w0 : world) : outcome :=
  let '(tmp, w) := mkdtemp w0 in
  match unpacked (fun _ => []) with
  | None => None
  | Some ((tempdir, l), Some e) => Some (leave tmp tempdir (print l w), Some e)
  | Some ((tempdir, l), None) =>
      let w1 := print l w in
      match find_daz_root tempdir with
      | None =>
          let w2 := print [NoDazFolder archive_name] w1 in
          Some (if keep_temp then leave tmp tempdir w2 else w2, None)
      | Some daz_root =>
          deliver tmp tempdir daz_root w1 (fun w2 => Some (w2, None))
      end
  end.

End Orchestrator.

(** ** CLI entry point *)

Section Main.

Variables (fuel : nat) (include_promos keep_temp merge_into_content : bool).

Fixpoint process_all (archives : entries) (w : world) : outcome :=
  match archives with
  | [] => Some (w, None)
  | (name, archive) :: rest =>
      match process_archive fuel name archive include_promos keep_temp
              merge_into_content w with
      | None => None
      | Some (w1, Some e) => Some (w1, Some e)
      | Some (w1, None) => process_all rest w1
      end
  end.

(** [w] is the world once [args.output_dir] has been created. *)
Definition main (input_dir : entries) (w : world) : outcome :=
  let archives :=
    filter (fun '(n, f) => is_file f && is_archive_name n) input_dir in
  match archives with
  | [] => Some (print [NoArchivesFound] w, None)
  | _ :: _ =>
      match process_all archives w with
      | Some (w1, None) => Some (print [AllDone] w1, None)
      | other => other
      end
  end.

End Main.

(** ** Relations between trees, for the merge into [Content]

    [shape_le R t s]: every entry of [t] is an entry of [s] of the same
    kind, and a file of [t] is related by [R] to the file of [s] in its
    place. *)
Inductive shape_le (R : content -> content -> Prop) : node -> node -> Prop :=
| shape_le_file c c' : R c c' -> shape_le R (File c) (File c')
| shape_le_dir et es :
    (forall n t, lookup n et = Some t -> lookup n es <> None) ->
    (forall n t s, lookup n et = Some t -> lookup n es = Some s ->
              shape_le R t s) ->
    shape_le R (Dir et) (Dir es).

(** The relations between files that the relation between trees is
    taken over: a file is related to itself, and the relation goes
    through a file in between. *)
Class Lasting (R : content -> content -> Prop) : Prop := {
  lasting_refl : forall c, R c c;
  lasting_trans : forall a b c, R a b -> R b c -> R a c
}.

(** Whatever the files hold. *)
Definition any_file (c c' : content) : Prop := True.

(** What a copy of files that can be written to makes of a file: a
    read-only file stays as it is, and a file that can be written to may
    hold other bytes and can still be written to. *)
Definition kept (c c' : content) : Prop :=
  if read_only c then c' = c else read_only c' = false.

(** [ok] holds of every file of the tree. *)
Fixpoint all_files (ok : content -> bool) (x : node) : bool :=
  match x with
  | File c => ok c
  | Dir es =>
      (fix go (l : entries) : bool :=
         match l with
         | [] => true
         | (_, y) :: r => all_files ok y && go r
         end) es
  end.

(** No file of the listing is read-only. *)
Definition writable (es : entries) : bool :=
  all_files (fun c => negb (read_only c)) (Dir es).

Definition listing (ot : option node) : entries :=
  match ot with Some (Dir es) => es | _ => [] end.

(** [mixes ot u s]: [u] has the entries of [s], in the same order, and
    each file of [u] holds what it holds in [s] or what it holds in
    [ot]. *)
Inductive mixes : option node -> node -> node -> Prop :=
| mixes_same ot c : mixes ot (File c) (File c)
| mixes_mine c c' : mixes (Some (File c)) (File c) (File c')
| mixes_dir ot eu es :
    map fst eu = map fst es ->
    (forall n u s, lookup n eu = Some u -> lookup n es = Some s ->
              mixes (lookup n (listing ot)) u s) ->
    mixes ot (Dir eu) (Dir es).

(** A step on the output directory: the directory after it and the
    exception it raised, if any. *)
Definition step := entries -> entries * option string.

Definition run_steps (gs : list step) (out : entries)
  : entries * option string :=
  each_until (fun (g : step) o => g o) gs out.

(** A step that writes the same files whenever the entries it writes
    to are there. *)
Record coherent (g : step) : Prop := {
  coherent_grows : forall T, shape_le kept (Dir T) (Dir (fst (g T)));
  coherent_wf : forall T, wf T = true -> wf (fst (g T)) = true;
  coherent_mixes : forall T U S,
      mixes (Some (Dir T)) (Dir U) (Dir S) ->
      shape_le kept (Dir (fst (g T))) (Dir S) ->
      mixes (Some (Dir (fst (g T)))) (Dir (fst (g U))) (Dir S) /\
      snd (g T) = snd (g U)
}.

(** [mkdir] of the directory [target] of the output directory followed
    by [copy_daz_root] into it. *)
Definition copy_into (target : string) (include_promos : bool)
  (daz_root : entries) : step :=
  fun out =>
    match lookup target out with
    | Some (File _) => (out, Some "File exists")
    | old =>
        (set target
           (Dir (fst (copy_daz_root daz_root (listing old) include_promos)))
           out,
         snd (copy_daz_root daz_root (listing old) include_promos))
    end.

(** What [place] does to the output directory. *)
Definition place_out (archive_name : string)
  (include_promos merge_into_content : bool) (daz_root : entries) : step :=
  fun out =>
    let '((o, _), e) :=
      place archive_name include_promos merge_into_content daz_root out in
    (o, e).

(** The steps of [process_archive] on the output directory in merge
    mode: none without a content root, and the same copy three times
    with one; [None] when the unpacker does not return. *)
Definition merge_steps (fuel : nat) (archive_name : string) (archive : node)
  (include_promos : bool) : option (list step) :=
  match unpacked fuel archive_name archive (fun _ => []) with
  | None => None
  | Some ((tempdir, _), _) =>
      match find_daz_root tempdir with
      | None => Some []
      | Some p =>
          let g :=
            place_out archive_name include_promos true (dir_at p tempdir) in
          Some [g; g; g]
      end
  end.

(** No file that the archive unpacks to is read-only. *)
Definition unpacks_writable (fuel : nat) (archive_name : string)
  (archive : node) : bool :=
  match unpacked fuel archive_name archive (fun _ => []) with
  | Some ((tempdir, _), _) => writable tempdir
  | None => true
  end.

(** [placed n x y]: the entry [y] of a destination holds the entry [x]
    of the name [n] that was copied onto it.  A file is there with its
    bytes and its mode, or inside [y] under its name when [y] is a
    directory; a directory is there with all its entries. *)
Inductive placed : string -> node -> node -> Prop :=
| placed_file n c : placed n (File c) (File c)
| placed_inside n c sub :
    lookup n sub = Some (File c) -> placed n (File c) (Dir sub)
| placed_dir n ms sub :
    (forall m y, lookup m ms = Some y -> lookup m sub <> None) ->
    (forall m y z, lookup m ms = Some y -> lookup m sub = Some z ->
              placed m y z) ->
    placed n (Dir ms) (Dir sub).

(** Two archives that write the same file of [Content], and a file
    that is no archive. *)
Definition merge_example_input : entries :=
  [("one.zip",
    File (Packed Zip
            [("Runtime", Dir [("a.duf", File (Raw "1"))]);
             ("promo.jpg", File (Raw "p"))] None));
   ("two.RAR",
    File (Packed Rar
            [("pack", Dir [("runtime", Dir []);
                           ("Runtime", Dir [("a.duf", File (Raw "2"))])])]
            None));
   ("notes.txt", File (Raw "n"))].

Definition merge_example_first : world :=
  Eval vm_compute in
    match main 1 false false true merge_example_input (World [] [] 0 []) with
    | Some (w1, _) => w1
    | None => World [] [] 0 []
    end.

(** Two archives with the same two files; [a.duf] is read-only in the
    second one.  [locked_example_first] is the world after a run in
    merge mode into an empty output directory, and
    [locked_example_second] the world after a second run. *)
Definition locked_example_input : entries :=
  [("one.7z",
    File (Packed SevenZ
            [("Runtime", Dir [("a.duf", File (Raw "a1"));
                              ("b.duf", File (Raw "b1"))])] None));
   ("two.7z",
    File (Packed SevenZ
            [("Runtime", Dir [("a.duf", File (Content true (Raw "a2")));
                              ("b.duf", File (Raw "b2"))])] None))].

Definition locked_example_first : world :=
  Eval vm_compute in
    match main 1 false false true locked_example_input (World [] [] 0 []) with
    | Some (w1, _) => w1
    | None => World [] [] 0 []
    end.

Definition locked_example_second : world :=
  Eval vm_compute in
    match main 1 false false true locked_example_input locked_example_first
    with
    | Some (w2, _) => w2
    | None => World [] [] 0 []
    end.

(** What a block of [process_archive] does, given the run [r] of its
    copies on the output directory: it ends as [r] does, with the output
    directory of [r], and with the scratch directories it found when
    none is kept. *)
Definition follows (keep_temp : bool) (r : entries * option string)
  (w : world) (res : outcome) : Prop :=
  exists w',
    res = Some (w', snd r) /\
    output_dir w' = fst r /\
    (keep_temp = false -> snd r = None -> scratch w' = scratch w).

(** The directory of the output that [process_archive] writes to. *)
Definition target_of (merge_into_content : bool) (archive_name : string)
  : string :=
  if merge_into_content then "Content"
  else (stem archive_name ++ "_normalized")%string.

(** No entry of the listing is a directory. *)
Definition files_only (es : entries) : bool :=
  forallb (fun '(_, x) => is_file x) es.

(** The entry [n] of the listing is a directory. *)
Definition is_dir_entry (n : string) (es : entries) : bool :=
  match lookup n es with Some (Dir _) => true | _ => false end.

(** The run of [merge_example_input] into an output directory that
    holds a directory of the user. *)
Definition library_example_result : world :=
  Eval vm_compute in
    match main 1 false false true merge_example_input
            (World [("Library", Dir [("mine.duf", File (Raw "m"))])] [] 0 [])
    with
    | Some (w1, _) => w1
    | None => World [] [] 0 []
    end.

(** An archive with a promo beside an inner archive that holds the
    content below a folder, and its run in per-archive mode. *)
Definition normalized_example_archive : node :=
  File (Packed Zip
          [("promo.jpg", File (Raw "p"));
           ("inner.rar",
            File (Packed Rar
                    [("My Pack",
                      Dir [("readme.pdf", File (Raw "r"));
                           ("data", Dir []);
                           ("People", Dir [("g.duf", File (Raw "g"))])])]
                    None))]
          None).

Definition normalized_example_result : world :=
  Eval vm_compute in
    match process_archive 2 "pack.v2.ZIP" normalized_example_archive
            false false false (World [] [] 0 []) with
    | Some (w1, _) => w1
    | None => World [] [] 0 []
    end.

(** ** Induction on directory trees *)

Section NodeInduction.

Variables (P : node -> Prop) (Q : entries -> Prop).
Hypothesis Hfile : forall c, P (File c).
Hypothesis Hdir : forall es, Q es -> P (Dir es).
Hypothesis Hnil : Q [].
Hypothesis Hcons : forall n x r, P x -> Q r -> Q ((n, x) :: r).

Fixpoint node_tree_ind (x : node) : P x :=
  match x with
  | File c => Hfile c
  | Dir es =>
      Hdir ((fix go (l : entries) : Q l :=
               match l with
               | [] => Hnil
               | (n, y) :: r => Hcons n (node_tree_ind y) (go r)
               end) es)
  end.

Fixpoint entries_tree_ind (l : entries) : Q l :=
  match l with
  | [] => Hnil
  | (n, y) :: r => Hcons n (node_tree_ind y) (entries_tree_ind r)
  end.

End NodeInduction.

(** * Properties *)

(** ** Listings *)

Lemma lookup_In n es x : lookup n es = Some x -> In (n, x) es.
Proof.
  induction es as [|[m y] r IH]; simpl; [discriminate|].
  destruct (String.eqb_spec n m) as [->|Hne].
  - intros [= ->]. now left.
  - intros H. right. auto.
Qed.

Lemma lookup_set_same n x es : lookup n (set n x es) = Some x.
Proof.
  induction es as [|[m y] r IH]; simpl.
  - now rewrite String.eqb_refl.
  - destruct (String.eqb_spec n m) as [->|Hne]; simpl.
    + now rewrite String.eqb_refl.
    + destruct (String.eqb_spec n m); [contradiction|auto].
Qed.

Lemma lookup_set_other n m x es :
  m <> n -> lookup m (set n x es) = lookup m es.
Proof.
  intros Hne. induction es as [|[k y] r IH]; simpl.
  - destruct (String.eqb_spec m n); [contradiction|reflexivity].
  - destruct (String.eqb_spec n k) as [->|Hnk]; simpl.
    + destruct (String.eqb_spec m k); [contradiction|reflexivity].
    + destruct (String.eqb_spec m k); [reflexivity|auto].
Qed.

Lemma lookup_remove_other n m es :
  m <> n -> lookup m (remove n es) = lookup m es.
Proof.
  intros Hne. induction es as [|[k y] r IH]; simpl; [reflexivity|].
  destruct (String.eqb_spec n k) as [->|Hnk]; simpl.
  - destruct (String.eqb_spec m k); [contradiction|reflexivity].
  - destruct (String.eqb_spec m k); [reflexivity|auto].
Qed.

Lemma set_lookup_id n x es : lookup n es = Some x -> set n x es = es.
Proof.
  induction es as [|[m y] r IH]; simpl; [discriminate|].
  destruct (String.eqb_spec n m) as [->|Hne].
  - now intros [= ->].
  - intros H. now rewrite IH.
Qed.

Lemma names_set_present n x es :
  lookup n es <> None -> map fst (set n x es) = map fst es.
Proof.
  induction es as [|[m y] r IH]; simpl; [congruence|].
  destruct (String.eqb_spec n m) as [->|Hne]; simpl; [reflexivity|].
  intros H. now rewrite IH.
Qed.

Lemma lookup_none_names n es : lookup n es = None <-> ~ In n (map fst es).
Proof.
  induction es as [|[m y] r IH]; simpl; [tauto|].
  destruct (String.eqb_spec n m) as [->|Hne].
  - split; [discriminate|]. intros H. exfalso. apply H. now left.
  - rewrite IH. split; intros H; [intros [E|E]; [congruence|auto]|tauto].
Qed.

Lemma set_absent n x es : lookup n es = None -> set n x es = es ++ [(n, x)].
Proof.
  induction es as [|[m y] r IH]; simpl; [reflexivity|].
  destruct (String.eqb_spec n m) as [->|Hne]; [discriminate|].
  intros H. now rewrite IH.
Qed.

(** ** Paths *)

Lemma node_at_app q n x :
  forall y, node_at (q ++ [n]) x = Some y ->
       exists d, node_at q x = Some (Dir d) /\ lookup n d = Some y.
Proof.
  revert x. induction q as [|m q IH]; intros x y; simpl.
  - destruct x as [c|es]; [discriminate|].
    destruct (lookup n es) eqn:E; [|discriminate].
    intros [= ->]. eauto.
  - destruct x as [c|es]; [discriminate|].
    destruct (lookup m es) as [z|]; [|discriminate]. apply IH.
Qed.

Lemma path_split (p : path) : p <> [] -> p = parent p ++ [name_of p].
Proof. intros H. now apply app_removelast_last. Qed.

(** ** The tree walk lists every path of the tree *)

Lemma iterate_directories_complete q :
  forall x d, node_at q x = Some (Dir d) -> In (q, d) (iterate_directories x).
Proof.
  induction q as [|n q IH]; intros x d; simpl.
  - intros [= ->]. now left.
  - destruct x as [c|es]; [discriminate|].
    destruct (lookup n es) as [y|] eqn:E; [|discriminate].
    intros H. simpl. right. apply in_flat_map.
    exists (n, y). split; [now apply lookup_In|].
    apply in_map_iff. exists (q, d). split; [reflexivity|auto].
Qed.

Lemma rglob_complete root p x :
  p <> [] -> node_at p (Dir root) = Some x -> In (p, x) (rglob root).
Proof.
  intros Hp H. rewrite (path_split Hp) in H.
  destruct (node_at_app _ _ _ H) as (d & Hd & Hn).
  unfold rglob. apply in_flat_map. exists (parent p, d).
  split; [now apply iterate_directories_complete|].
  unfold children. apply in_map_iff. exists (name_of p, x).
  split; [now rewrite <- path_split|now apply lookup_In].
Qed.

(** ** The content-root locator *)

Lemma mem_In s l : mem s l = true <-> In s l.
Proof.
  unfold mem. rewrite existsb_exists. split.
  - intros (y & Hy & E). apply String.eqb_eq in E. now subst.
  - intros H. exists s. split; [assumption|apply String.eqb_refl].
Qed.

Lemma subdir_names_In s d :
  In s (subdir_names d) <-> exists n sub, In (n, Dir sub) d /\ s = lower n.
Proof.
  unfold subdir_names. rewrite in_map_iff. split.
  - intros ([n x] & E & H). apply filter_In in H. destruct H as [H Hd].
    destruct x as [c|sub]; [discriminate|]. eauto.
  - intros (n & sub & H & ->). exists (n, Dir sub). split; [reflexivity|].
    apply filter_In. now split.
Qed.

Lemma has_daz_folder_qualifies d : has_daz_folder d = true <-> qualifies d.
Proof.
  unfold has_daz_folder, qualifies. rewrite existsb_exists. split.
  - intros (f & Hf & Hm). apply mem_In, subdir_names_In in Hm.
    destruct Hm as (n & sub & H & ->). eauto.
  - intros (n & sub & H & Hf). exists (lower n). split; [assumption|].
    apply mem_In, subdir_names_In. eauto.
Qed.

Lemma has_daz_folder_not d : has_daz_folder d = false <-> ~ qualifies d.
Proof.
  rewrite <- has_daz_folder_qualifies.
  destruct (has_daz_folder d); split; congruence.
Qed.

(** [first_daz_dir] returns the first directory of the walk that holds a
    content folder. *)
Lemma first_daz_dir_spec l :
  (exists before p sub after,
      l = before ++ (p, Dir sub) :: after /\ qualifies sub /\
      none_qualify before /\ first_daz_dir l = Some p)
  \/ (none_qualify l /\ first_daz_dir l = None).
Proof.
  induction l as [|[p x] r IH]; simpl.
  - right. split; [intros q d []|reflexivity].
  - destruct x as [c|sub].
    + destruct IH as [(b & p' & s & a & -> & Hq & Hb & E)|[Hn E]].
      * left. exists ((p, File c) :: b), p', s, a. repeat split; try assumption.
        intros q d [H|H]; [discriminate|eauto].
      * right. split; [|assumption].
        intros q d [H|H]; [discriminate|eauto].
    + destruct (has_daz_folder sub) eqn:Hs.
      * left. exists [], p, sub, r. repeat split.
        -- now apply has_daz_folder_qualifies.
        -- intros q d [].
      * apply has_daz_folder_not in Hs.
        destruct IH as [(b & p' & s & a & -> & Hq & Hb & E)|[Hn E]].
        -- left. exists ((p, Dir sub) :: b), p', s, a.
           repeat split; try assumption.
           intros q d [H|H]; [now inversion H; subst|eauto].
        -- right. split; [|assumption].
           intros q d [H|H]; [now inversion H; subst|eauto].
Qed.

Lemma first_daz_dir_first before p sub after :
  qualifies sub -> none_qualify before ->
  first_daz_dir (before ++ (p, Dir sub) :: after) = Some p.
Proof.
  intros Hq. induction before as [|[q x] r IH]; intros Hn; simpl.
  - apply has_daz_folder_qualifies in Hq. now rewrite Hq.
  - assert (Hr : none_qualify r) by (intros q' d H; apply (Hn q' d); now right).
    destruct x as [c|d]; [auto|].
    assert (Hd : has_daz_folder d = false).
    { apply has_daz_folder_not. apply (Hn q d). now left. }
    rewrite Hd. auto.
Qed.

Lemma first_daz_dir_none l : none_qualify l -> first_daz_dir l = None.
Proof.
  intros Hn.
  destruct (first_daz_dir_spec l)
    as [(b & p & s & a & -> & Hq & _)|[_ E]]; [|assumption].
  exfalso. apply (Hn p s); [|assumption].
  apply in_or_app. right. now left.
Qed.

(** C5: when a subdirectory of the root is a content folder, the root
    itself is returned; otherwise the first directory of the walk whose
    subdirectories hold a content folder is returned; and when no
    directory of the tree has one, nothing is found.  A tree whose only
    content folder is [a/b/People] gives [a/b]. *)
Theorem find_daz_root_cases :
  (forall root, qualifies root -> find_daz_root root = Some [])
  /\ (forall root before p sub after,
         ~ qualifies root ->
         rglob root = before ++ (p, Dir sub) :: after ->
         qualifies sub -> none_qualify before ->
         find_daz_root root = Some p)
  /\ (forall root,
         ~ qualifies root -> none_qualify (rglob root) ->
         find_daz_root root = None)
  /\ find_daz_root [("a", Dir [("b", Dir [("People", Dir [])])])]
     = Some ["a"; "b"].
Proof.
  unfold find_daz_root. repeat split.
  - intros root Hq. apply has_daz_folder_qualifies in Hq. now rewrite Hq.
  - intros root before p sub after Hr E Hq Hb.
    apply has_daz_folder_not in Hr. rewrite Hr, E.
    now apply first_daz_dir_first.
  - intros root Hr Hn. apply has_daz_folder_not in Hr. rewrite Hr.
    now apply first_daz_dir_none.
Qed.

Lemma find_daz_root_cases_witness :
  find_daz_root [("Docs", Dir []); ("RUNTIME", Dir []); ("readme.txt", File (Raw "r"))]
  = Some []
  /\ find_daz_root
       [("pack", Dir [("docs", Dir []); ("v1", Dir [("Props", Dir [])])])]
     = Some ["pack"; "v1"]
  /\ find_daz_root [("pack", Dir [("Runtime", File (Raw "not a folder"))])]
     = None.
Proof.
  destruct find_daz_root_cases as (Hroot & Hfirst & Hnone & _).
  split; [|split].
  - apply Hroot. exists "RUNTIME", []. split; [right; now left|].
    simpl. tauto.
  - apply (Hfirst _ [(["pack"], Dir [("docs", Dir []); ("v1", Dir [("Props", Dir [])])]);
                     (["pack"; "docs"], Dir [])]
             ["pack"; "v1"] [("Props", Dir [])] [(["pack"; "v1"; "Props"], Dir [])]).
    + apply has_daz_folder_not. reflexivity.
    + reflexivity.
    + exists "Props", []. split; [now left|]. simpl. tauto.
    + intros q d [H|[H|[]]]; injection H as <- <-;
        apply has_daz_folder_not; reflexivity.
  - apply Hnone.
    + apply has_daz_folder_not. reflexivity.
    + intros q d [H|[H|[]]]; try discriminate.
      injection H as <- <-. apply has_daz_folder_not. reflexivity.
Defined.

(** C4, as the program behaves: when no subdirectory of the root is a
    content folder, the directory returned is the first one of the walk
    whose subdirectories hold a content folder, and no directory the walk
    visits before it has one. *)
Theorem find_daz_root_first_in_walk root p :
  has_daz_folder root = false ->
  find_daz_root root = Some p ->
  exists before sub after,
    rglob root = before ++ (p, Dir sub) :: after /\ qualifies sub /\
    none_qualify before.
Proof.
  unfold find_daz_root. intros -> H.
  destruct (first_daz_dir_spec (rglob root))
    as [(b & p' & s & a & E & Hq & Hb & F)|[Hn F]]; [|congruence].
  rewrite F in H. injection H as <-. exists b, s, a. auto.
Qed.

Lemma find_daz_root_first_in_walk_witness :
  exists before sub after,
    rglob three_roots_tree = before ++ (["a"; "b"; "c"], Dir sub) :: after /\
    qualifies sub /\ none_qualify before.
Proof.
  apply (@find_daz_root_first_in_walk three_roots_tree ["a"; "b"; "c"]);
    reflexivity.
Defined.

(** C4 as stated fails: in [three_roots_tree] the walk reaches [a/b/c]
    before [m/z], which is not as deep and holds a content folder too. *)
Lemma find_daz_root_not_shallowest :
  ~ (forall root p,
        has_daz_folder root = false ->
        find_daz_root root = Some p ->
        forall q d, In (q, Dir d) (rglob root) -> qualifies d ->
               List.length p <= List.length q).
Proof.
  intros H.
  specialize (H three_roots_tree ["a"; "b"; "c"] eq_refl eq_refl
                ["m"; "z"] [("Runtime", Dir [])]).
  simpl in H.
  assert (L : 3 <= 2); [|lia].
  apply H.
  - do 6 right. now left.
  - exists "Runtime", []. split; [now left|]. simpl. tauto.
Qed.

(** ** The archive extractor *)

Lemma is_archive_name_cases n :
  is_archive_name n = true ->
  lower (suffix n) = ".zip" \/ lower (suffix n) = ".rar" \/
  lower (suffix n) = ".7z".
Proof.
  unfold is_archive_name. rewrite mem_In. simpl.
  intros [H|[H|[H|[]]]]; auto.
Qed.

Lemma extract_archive_try_format archive_path src dest :
  is_archive_name (name_of archive_path) = true ->
  exists f, lower (suffix (name_of archive_path)) = ext_of f /\
       extract_archive_try archive_path src dest =
       ((fst (decode f src dest), []), snd (decode f src dest)).
Proof.
  intros H. unfold extract_archive_try.
  destruct (is_archive_name_cases _ H) as [E|[E|E]]; rewrite E; simpl.
  - exists Zip. now destruct (decode Zip src dest).
  - exists Rar. now destruct (decode Rar src dest).
  - exists SevenZ. now destruct (decode SevenZ src dest).
Qed.

Lemma extract_archive_try_unsupported archive_path src dest :
  is_archive_name (name_of archive_path) = false ->
  extract_archive_try archive_path src dest =
  ((dest, [SkipUnsupported archive_path]), None).
Proof.
  unfold is_archive_name, extract_archive_try, mem. simpl.
  destruct (lower (suffix (name_of archive_path)) =? ".zip")%string;
    [discriminate|].
  destruct (lower (suffix (name_of archive_path)) =? ".rar")%string;
    [discriminate|].
  destruct (lower (suffix (name_of archive_path)) =? ".7z")%string;
    [discriminate|reflexivity].
Qed.

Lemma extract_archive_never_raises archive_path src dest :
  snd (extract_archive archive_path src dest) = None.
Proof.
  unfold extract_archive.
  now destruct (extract_archive_try archive_path src dest) as [[d l] [e|]].
Qed.

(** C8: [extract_archive] never raises.  For a name whose extension is
    not one of the three it leaves the destination alone and prints the
    warning.  Otherwise the decoder of the extension runs; when it raises,
    the destination is left as the decoder left it and the failure is
    printed with the path and the message of the error.  A damaged
    archive shows both: the member read before the damage stays. *)
Theorem extract_archive_contains_failures :
  (forall archive_path src dest,
      snd (extract_archive archive_path src dest) = None /\
      ((is_archive_name (name_of archive_path) = false /\
        extract_archive archive_path src dest =
        ((dest, [SkipUnsupported archive_path]), None))
       \/ (exists f d,
             lower (suffix (name_of archive_path)) = ext_of f /\
             decode f src dest = (d, None) /\
             extract_archive archive_path src dest = ((d, []), None))
       \/ (exists f d e,
             lower (suffix (name_of archive_path)) = ext_of f /\
             decode f src dest = (d, Some e) /\
             extract_archive archive_path src dest =
             ((d, [ExtractFailed archive_path e]), None))))
  /\ extract_archive ["set.zip"]
       (Some (File (Packed Zip [("a.duf", File (Raw "1"))] (Some "Bad CRC-32"))))
       [("old.duf", File (Raw "0"))]
     = (([("old.duf", File (Raw "0")); ("a.duf", File (Raw "1"))],
         [ExtractFailed ["set.zip"] "Bad CRC-32"]), None).
Proof.
  split; [|reflexivity].
  intros archive_path src dest.
  split; [apply extract_archive_never_raises|].
  destruct (is_archive_name (name_of archive_path)) eqn:Ha.
  - right.
    destruct (extract_archive_try_format archive_path src dest Ha)
      as (f & Hf & Ht).
    unfold extract_archive. rewrite Ht.
    destruct (decode f src dest) as [d [e|]] eqn:Hd; simpl.
    + right. exists f, d, e. auto.
    + left. exists f, d. auto.
  - left. split; [reflexivity|].
    unfold extract_archive.
    now rewrite extract_archive_try_unsupported.
Qed.

(** ** The selective copier *)

Lemma copy_daz_root_cons n item rest out include_promos :
  copy_daz_root ((n, item) :: rest) out include_promos =
  if negb include_promos && is_promo_name n
  then copy_daz_root rest out include_promos
  else match copy_entry item n out with
       | (out1, None) => copy_daz_root rest out1 include_promos
       | (out1, Some e) => (out1, Some e)
       end.
Proof.
  unfold copy_daz_root. simpl.
  now destruct (negb include_promos && is_promo_name n).
Qed.

(** Without promos, an entry with a promotional extension is skipped
    whether it is a file or a directory. *)
Lemma copy_daz_root_skips n item rest out :
  is_promo_name n = true ->
  copy_daz_root ((n, item) :: rest) out false = copy_daz_root rest out false.
Proof. intros H. rewrite copy_daz_root_cons. simpl. now rewrite H. Qed.

(** C2 fails on a directory with a promotional extension: [pics.jpg] is
    a directory of the content root, and it is not copied. *)
Theorem copy_daz_root_drops_directory :
  let source_root :=
    [("pics.jpg", Dir [("a.duf", File (Raw "1"))]); ("Runtime", Dir [])] in
  (exists sub, lookup "pics.jpg" source_root = Some (Dir sub)) /\
  copy_daz_root source_root [] false = ([("Runtime", Dir [])], None) /\
  copy_daz_root source_root [] true = (source_root, None).
Proof.
  simpl. split; [eauto|]. split; reflexivity.
Qed.

(** ** Directories stay where they are

    Nothing the unpacker does removes a directory or puts a file in its
    place. *)

Lemma keeps_dirs_refl x : keeps_dirs x x.
Proof. intros p sub H. eauto. Qed.

Lemma keeps_dirs_trans x y z :
  keeps_dirs x y -> keeps_dirs y z -> keeps_dirs x z.
Proof.
  intros Hxy Hyz p sub H.
  destruct (Hxy _ _ H) as [sub' H']. eauto.
Qed.

Lemma keeps_dirs_file c y : keeps_dirs (File c) y.
Proof. intros [|n q] sub H; discriminate. Qed.

Lemma keeps_dirs_set n new es :
  (forall old, lookup n es = Some old -> keeps_dirs old new) ->
  keeps_dirs (Dir es) (Dir (set n new es)).
Proof.
  intros H [|m q] sub; simpl; [eauto|].
  destruct (String.eqb_spec m n) as [->|Hne].
  - rewrite lookup_set_same.
    destruct (lookup n es) as [old|]; [|discriminate].
    now apply H.
  - rewrite lookup_set_other by assumption. eauto.
Qed.

Lemma keeps_dirs_remove n c es :
  lookup n es = Some (File c) -> keeps_dirs (Dir es) (Dir (remove n es)).
Proof.
  intros H [|m q] sub; simpl; [eauto|].
  destruct (String.eqb_spec m n) as [->|Hne].
  - rewrite H. now destruct q.
  - rewrite lookup_remove_other by assumption. eauto.
Qed.

Lemma dir_at_cons n q root sub :
  lookup n root = Some (Dir sub) -> dir_at (n :: q) root = dir_at q sub.
Proof. intros H. unfold dir_at. simpl. now rewrite H. Qed.

Lemma keeps_dirs_update_at q g :
  forall root,
    keeps_dirs (Dir (dir_at q root)) (Dir (g (dir_at q root))) ->
    keeps_dirs (Dir root) (Dir (update_at q g root)).
Proof.
  induction q as [|n q IH]; intros root; simpl; [auto|].
  destruct (lookup n root) as [[c|sub]|] eqn:E;
    try (intros _; apply keeps_dirs_refl).
  rewrite (@dir_at_cons n q root sub E). intros H.
  apply keeps_dirs_set. intros old Ho.
  rewrite E in Ho. injection Ho as <-. auto.
Qed.

(** Naming the result of the loop over the members of a directory. *)
Ltac split_loop d e :=
  match goal with
  | |- context [each_until ?f ?l ?s] => destruct (each_until f l s) as [d e]
  | |- context [each_collect ?f ?l ?s] => destruct (each_collect f l s) as [d e]
  end.

Lemma keeps_dirs_write_member keep x :
  forall n dest,
    keeps_dirs (Dir dest) (Dir (fst (write_member keep x n dest))).
Proof.
  induction x using node_tree_ind with
    (Q := fun ms => forall dest,
              keeps_dirs (Dir dest)
                (Dir (fst (each_until (fun '(m, y) => write_member keep y m)
                             ms dest)))).
  - intros n dest. simpl.
    destruct (lookup n dest) as [[c0|sub]|] eqn:E; simpl.
    + destruct (read_only c0); simpl; [apply keeps_dirs_refl|].
      apply keeps_dirs_set. intros old Ho. rewrite E in Ho.
      injection Ho as <-. apply keeps_dirs_file.
    + apply keeps_dirs_refl.
    + apply keeps_dirs_set. intros old Ho. congruence.
  - intros n dest. simpl.
    destruct (lookup n dest) as [[c0|sub]|] eqn:E; simpl.
    + apply keeps_dirs_refl.
    + specialize (IHx sub). split_loop sub' e. simpl in *.
      apply keeps_dirs_set. intros old Ho. rewrite E in Ho.
      now injection Ho as <-.
    + split_loop sub' e. simpl.
      apply keeps_dirs_set. intros old Ho. congruence.
  - intros dest. apply keeps_dirs_refl.
  - intros dest. simpl.
    specialize (IHx n dest).
    destruct (write_member keep x n dest) as [d' [e|]]; simpl in *;
      [assumption|].
    eapply keeps_dirs_trans; [exact IHx|apply IHx0].
Qed.

Lemma keeps_dirs_extractall keep ms :
  forall dest, keeps_dirs (Dir dest) (Dir (fst (extractall keep ms dest))).
Proof.
  unfold extractall. induction ms as [|[m y] r IH]; intros dest; simpl.
  - apply keeps_dirs_refl.
  - pose proof (keeps_dirs_write_member keep y m dest) as H.
    destruct (write_member keep y m dest) as [d' [e|]]; simpl in *;
      [assumption|].
    eapply keeps_dirs_trans; [exact H|apply IH].
Qed.

Lemma keeps_dirs_decode f src dest :
  keeps_dirs (Dir dest) (Dir (fst (decode f src dest))).
Proof.
  unfold decode.
  destruct src as [[[ro [data|g ms fault]]|es]|]; simpl;
    try apply keeps_dirs_refl.
  destruct (format_eqb f g); [|apply keeps_dirs_refl].
  pose proof (keeps_dirs_extractall (restores_mode f) ms dest) as H.
  now destruct (extractall (restores_mode f) ms dest) as [d [e|]].
Qed.

Lemma keeps_dirs_extract_archive archive_path src dest :
  keeps_dirs (Dir dest)
    (Dir (fst (fst (extract_archive archive_path src dest)))).
Proof.
  unfold extract_archive.
  destruct (is_archive_name (name_of archive_path)) eqn:Ha.
  - destruct (extract_archive_try_format archive_path src dest Ha)
      as (f & _ & ->).
    pose proof (keeps_dirs_decode f src dest) as H.
    now destruct (decode f src dest) as [d [e|]].
  - rewrite extract_archive_try_unsupported by assumption.
    apply keeps_dirs_refl.
Qed.

Lemma keeps_dirs_unlink p root :
  keeps_dirs (Dir root) (Dir (fst (unlink p root))).
Proof.
  unfold unlink.
  destruct (node_at p (Dir root)) as [[c|es]|] eqn:E; simpl;
    try apply keeps_dirs_refl.
  assert (Hp : p <> []) by (intros ->; discriminate).
  rewrite (path_split Hp) in E.
  destruct (node_at_app _ _ _ E) as (d & Hd & Hn).
  apply keeps_dirs_update_at.
  unfold dir_at. rewrite Hd. eapply keeps_dirs_remove; eauto.
Qed.

Lemma keeps_dirs_unpack_one a root :
  keeps_dirs (Dir root) (Dir (fst (unpack_one a root))).
Proof.
  unfold unpack_one.
  pose proof (keeps_dirs_extract_archive a (node_at a (Dir root))
                (dir_at (parent a) root)) as H.
  destruct (extract_archive a (node_at a (Dir root)) (dir_at (parent a) root))
    as [[d l] e]. simpl in H.
  assert (H1 : keeps_dirs (Dir root)
                 (Dir (update_at (parent a) (fun _ => d) root)))
    by now apply keeps_dirs_update_at.
  destruct e as [msg|]; simpl; [assumption|].
  pose proof (keeps_dirs_unlink a (update_at (parent a) (fun _ => d) root))
    as H2.
  destruct (unlink a (update_at (parent a) (fun _ => d) root)) as [r2 [msg|]];
    simpl in *; eapply keeps_dirs_trans; eauto.
Qed.

Lemma keeps_dirs_unpack_pass archives :
  forall root, keeps_dirs (Dir root) (Dir (fst (unpack_pass archives root))).
Proof.
  induction archives as [|a r IH]; intros root; simpl.
  - apply keeps_dirs_refl.
  - pose proof (keeps_dirs_unpack_one a root) as H1.
    destruct (unpack_one a root) as [root1 l1]. simpl in H1.
    specialize (IH root1).
    destruct (unpack_pass r root1) as [root2 l2]. simpl in *.
    eapply keeps_dirs_trans; eauto.
Qed.

(** ** The recursive unpacker *)

Lemma archives_under_complete root p x :
  node_at p (Dir root) = Some x ->
  is_archive_name (name_of p) = true ->
  In p (archives_under root).
Proof.
  intros H Ha.
  assert (Hp : p <> []) by (intros ->; discriminate).
  unfold archives_under. apply in_map_iff. exists (p, x).
  split; [reflexivity|]. apply filter_In.
  split; [now apply rglob_complete|assumption].
Qed.

(** A directory with the name of an archive keeps the loop going. *)
Lemma archive_named_dir_loops fuel :
  forall root iteration p sub,
    node_at p (Dir root) = Some (Dir sub) ->
    is_archive_name (name_of p) = true ->
    extract_all_archives_recursively fuel root iteration = None.
Proof.
  induction fuel as [|fuel IH]; intros root iteration p sub Hp Ha; simpl.
  - pose proof (archives_under_complete _ _ Hp Ha) as Hin.
    now destruct (archives_under root).
  - pose proof (archives_under_complete _ _ Hp Ha) as Hin.
    destruct (archives_under root) as [|a r] eqn:E; [destruct Hin|].
    pose proof (keeps_dirs_unpack_pass (a :: r) root) as Hk.
    destruct (unpack_pass (a :: r) root) as [root1 l1]. simpl in Hk.
    destruct (Hk _ _ Hp) as [sub' Hp'].
    now rewrite (IH root1 (S iteration) p sub' Hp' Ha).
Qed.

Lemma update_at_same q :
  forall root, update_at q (fun _ => dir_at q root) root = root.
Proof.
  induction q as [|n q IH]; intros root; simpl; [reflexivity|].
  destruct (lookup n root) as [[c|sub]|] eqn:E; try reflexivity.
  rewrite (@dir_at_cons n q root sub E), IH.
  now apply set_lookup_id.
Qed.

Lemma decode_directory f sub dest :
  decode f (Some (Dir sub)) dest = (dest, Some "Is a directory").
Proof. reflexivity. Qed.

(** What a pass does with a directory that has the name of an archive:
    the decoder and [unlink] both fail, and the tree is as it was. *)
Lemma unpack_one_directory root p sub :
  node_at p (Dir root) = Some (Dir sub) ->
  is_archive_name (name_of p) = true ->
  unpack_one p root =
  (root, [ExtractingNested p; ExtractFailed p "Is a directory";
          NestedFailed p "Is a directory"]).
Proof.
  intros Hp Ha. unfold unpack_one, extract_archive. rewrite Hp.
  destruct (extract_archive_try_format p (Some (Dir sub))
              (dir_at (parent p) root) Ha) as (f & _ & ->).
  rewrite decode_directory. simpl.
  rewrite update_at_same. unfold unlink. now rewrite Hp.
Qed.

(** C3: a directory whose name ends in an archive extension is found by
    the scan of every pass, the pass fails to extract and to delete it
    and leaves the tree as it was, and the unpacker does not return,
    whatever the number of passes it is given. *)
Theorem archive_named_directory_never_unpacked root p sub :
  node_at p (Dir root) = Some (Dir sub) ->
  is_archive_name (name_of p) = true ->
  In p (archives_under root) /\
  unpack_one p root =
  (root, [ExtractingNested p; ExtractFailed p "Is a directory";
          NestedFailed p "Is a directory"]) /\
  forall fuel iteration,
    extract_all_archives_recursively fuel root iteration = None.
Proof.
  intros Hp Ha. split; [eapply archives_under_complete; eauto|].
  split; [eapply unpack_one_directory; eauto|].
  intros fuel iteration. eapply archive_named_dir_loops; eauto.
Qed.

Lemma archive_named_directory_never_unpacked_witness :
  In ["set"; "Models.ZIP"]
    (archives_under [("set", Dir [("Models.ZIP", Dir [])])]) /\
  unpack_one ["set"; "Models.ZIP"] [("set", Dir [("Models.ZIP", Dir [])])] =
  ([("set", Dir [("Models.ZIP", Dir [])])],
   [ExtractingNested ["set"; "Models.ZIP"];
    ExtractFailed ["set"; "Models.ZIP"] "Is a directory";
    NestedFailed ["set"; "Models.ZIP"] "Is a directory"]) /\
  forall fuel iteration,
    extract_all_archives_recursively fuel
      [("set", Dir [("Models.ZIP", Dir [])])] iteration = None.
Proof.
  apply (@archive_named_directory_never_unpacked
           [("set", Dir [("Models.ZIP", Dir [])])] ["set"; "Models.ZIP"] []);
    reflexivity.
Defined.

(** A tree in which the scan finds nothing is left alone after that one
    scan. *)
Lemma unpack_nothing_found fuel root iteration :
  archives_under root = [] ->
  extract_all_archives_recursively fuel root iteration =
  Some (root, [NoMoreArchives iteration]).
Proof. intros H. destruct fuel; simpl; now rewrite H. Qed.

(** C7 fails on a directory with the name of an archive: the tree below
    holds no file with an archive extension, and the unpacker does not
    return on it. *)
Theorem unpacker_loops_without_archive_files :
  let root := [("models.zip", Dir [("a.duf", File (Raw "1"))])] in
  (forall p c, node_at p (Dir root) = Some (File c) ->
          is_archive_name (name_of p) = false) /\
  forall fuel iteration,
    extract_all_archives_recursively fuel root iteration = None.
Proof.
  split.
  - intros [|n [|m [|k q]]] c; simpl; try discriminate;
      destruct (n =? "models.zip")%string; simpl; try discriminate;
      destruct (String.eqb_spec m "a.duf") as [->|]; simpl;
      try discriminate.
    reflexivity.
  - intros fuel iteration.
    apply (@archive_named_dir_loops fuel _ iteration ["models.zip"]
             [("a.duf", File (Raw "1"))]); reflexivity.
Qed.

Lemma unpacker_result_scan_empty fuel :
  forall root iteration root' l,
    extract_all_archives_recursively fuel root iteration = Some (root', l) ->
    archives_under root' = [].
Proof.
  induction fuel as [|fuel IH]; intros root iteration root' l; simpl.
  - destruct (archives_under root) eqn:E; [|discriminate].
    now intros [= <- _].
  - destruct (archives_under root) as [|a r] eqn:E.
    + now intros [= <- _].
    + destruct (unpack_pass (a :: r) root) as [root1 l1].
      destruct (extract_all_archives_recursively fuel root1 (S iteration))
        as [[root2 l2]|] eqn:F; [|discriminate].
      intros [= <- _]. eauto.
Qed.

(** *** Archives nested in archives *)

Lemma wf_cons n y r :
  wf ((n, y) :: r) = negb (mem n (map fst r)) && wf_node y && wf r.
Proof. reflexivity. Qed.

Lemma lookup_app n a b :
  lookup n (a ++ b) =
  match lookup n a with Some x => Some x | None => lookup n b end.
Proof.
  induction a as [|[m y] r IH]; simpl; [reflexivity|].
  now destruct (n =? m)%string.
Qed.

Lemma mem_false_In s l : mem s l = false <-> ~ In s l.
Proof.
  rewrite <- mem_In. destruct (mem s l); split; congruence.
Qed.

(** Unpacking well-formed members next to entries of other names adds
    them as the decoder writes them. *)
Lemma write_member_fresh keep x :
  forall n dest,
    wf_node x = true -> lookup n dest = None ->
    write_member keep x n dest = (dest ++ [(n, as_written keep x)], None).
Proof.
  induction x using node_tree_ind with
    (Q := fun ms => forall dest,
              wf ms = true ->
              (forall m, In m (map fst ms) -> lookup m dest = None) ->
              each_until (fun '(m, y) => write_member keep y m) ms dest
              = (dest ++ map (fun '(m, y) => (m, as_written keep y)) ms, None)).
  - intros n dest _ H. simpl. rewrite H. now rewrite set_absent.
  - intros n dest Hw H. simpl. rewrite H.
    rewrite (IHx [] Hw) by reflexivity. simpl. now rewrite set_absent.
  - intros dest _ _. simpl. now rewrite app_nil_r.
  - intros dest Hw H. rewrite wf_cons in Hw.
    apply andb_prop in Hw. destruct Hw as [Hw Hr].
    apply andb_prop in Hw. destruct Hw as [Hn Hx].
    apply negb_true_iff, mem_false_In in Hn.
    simpl. rewrite IHx by (auto; apply H; now left).
    rewrite IHx0; [now rewrite <- app_assoc|assumption|].
    intros m Hm. rewrite lookup_app, (H m) by (now right). simpl.
    destruct (String.eqb_spec m n) as [->|]; [contradiction|reflexivity].
Qed.

Lemma extractall_fresh keep ms dest :
  wf ms = true ->
  (forall m, In m (map fst ms) -> lookup m dest = None) ->
  extractall keep ms dest
  = (dest ++ map (fun '(m, y) => (m, as_written keep y)) ms, None).
Proof.
  revert dest. unfold extractall.
  induction ms as [|[n x] r IH]; intros dest Hw H; simpl.
  - now rewrite app_nil_r.
  - rewrite wf_cons in Hw.
    apply andb_prop in Hw. destruct Hw as [Hw Hr].
    apply andb_prop in Hw. destruct Hw as [Hn Hx].
    apply negb_true_iff, mem_false_In in Hn.
    rewrite write_member_fresh by (auto; apply H; now left).
    rewrite IH; [now rewrite <- app_assoc|assumption|].
    intros m Hm. rewrite lookup_app, (H m) by (now right). simpl.
    destruct (String.eqb_spec m n) as [->|]; [contradiction|reflexivity].
Qed.

Lemma writable_cons n y r :
  writable ((n, y) :: r)
  = all_files (fun c => negb (read_only c)) y && writable r.
Proof. reflexivity. Qed.

(** A decoder writes a tree without read-only files as it is. *)
Lemma as_written_writable keep x :
  all_files (fun c => negb (read_only c)) x = true -> as_written keep x = x.
Proof.
  induction x using node_tree_ind with
    (Q := fun ms => writable ms = true ->
              map (fun '(m, y) => (m, as_written keep y)) ms = ms).
  - simpl. destruct c as [[] b]; [discriminate|]. now destruct keep.
  - intros H. simpl. f_equal. now apply IHx.
  - reflexivity.
  - rewrite writable_cons. intros H. apply andb_prop in H.
    destruct H as [Hx Hr]. simpl. now rewrite IHx, IHx0.
Qed.

Lemma extracted_writable keep ms :
  writable ms = true -> map (fun '(m, y) => (m, as_written keep y)) ms = ms.
Proof.
  intros H. pose proof (as_written_writable keep (Dir ms) H) as E.
  simpl in E. now injection E.
Qed.

Lemma ext_of_archive n f : lower (suffix n) = ext_of f -> is_archive_name n = true.
Proof.
  unfold is_archive_name. intros ->. now destruct f.
Qed.

Lemma ext_of_inj f g : ext_of f = ext_of g -> f = g.
Proof. destruct f, g; simpl; congruence. Qed.

Lemma format_eqb_refl f : format_eqb f f = true.
Proof. now destruct f. Qed.

Lemma top_names_not_archives root m :
  archives_under root = [] -> In m (map fst root) -> is_archive_name m = false.
Proof.
  intros H Hm. apply in_map_iff in Hm. destruct Hm as ([k x] & <- & Hin).
  simpl. destruct (is_archive_name k) eqn:E; [|reflexivity].
  assert (Hp : In [k] (archives_under root)); [|now rewrite H in Hp].
  unfold archives_under. apply in_map_iff. exists ([k], x).
  split; [reflexivity|]. apply filter_In. split; [|assumption].
  unfold rglob. simpl. apply in_or_app. left.
  unfold children. apply in_map_iff. now exists (k, x).
Qed.

(** One pass over a tree that is one archive file puts its members in
    its place. *)
Lemma unpack_single_archive n f inner :
  lower (suffix n) = ext_of f ->
  wf inner = true ->
  writable inner = true ->
  ~ In n (map fst inner) ->
  archives_under [(n, File (Packed f inner None))] = [[n]] /\
  unpack_pass [[n]] [(n, File (Packed f inner None))] =
  (inner, [ExtractingNested [n]]).
Proof.
  intros Hf Hw Hwr Hn.
  pose proof (ext_of_archive _ _ Hf) as Ha.
  split.
  - unfold archives_under, rglob. cbn -[is_archive_name]. now rewrite Ha.
  - assert (Hnode : node_at [n] (Dir [(n, File (Packed f inner None))])
                    = Some (File (Packed f inner None)))
      by (simpl; now rewrite String.eqb_refl).
    assert (Hx : extract_archive [n] (Some (File (Packed f inner None)))
                   [(n, File (Packed f inner None))]
                 = (([(n, File (Packed f inner None))] ++ inner, []), None)).
    { unfold extract_archive.
      destruct (extract_archive_try_format [n]
                  (Some (File (Packed f inner None)))
                  [(n, File (Packed f inner None))] Ha) as (g & Hg & ->).
      change (name_of [n]) with n in Hg.
      rewrite Hf in Hg. apply ext_of_inj in Hg. subst g.
      unfold decode. simpl. rewrite format_eqb_refl.
      rewrite extractall_fresh; [now rewrite extracted_writable|assumption|].
      intros m Hm. simpl.
      destruct (String.eqb_spec m n) as [->|]; [contradiction|reflexivity]. }
    unfold unpack_pass, unpack_one.
    change (parent [n]) with (@nil string).
    change (dir_at [] [(n, File (Packed f inner None))])
      with [(n, File (Packed f inner None))].
    rewrite Hnode, Hx.
    unfold unlink. simpl. rewrite String.eqb_refl. simpl.
    now rewrite String.eqb_refl.
Qed.

Lemma wf_chain levels payload : wf payload = true -> wf (chain levels payload) = true.
Proof. destruct levels as [|[n f] r]; auto. Qed.

Lemma writable_chain levels payload :
  writable payload = true -> writable (chain levels payload) = true.
Proof. destruct levels as [|[n f] r]; auto. Qed.

(** Archives nested in each other under names that differ, down to a
    payload without archives and without read-only files, are unpacked to
    the payload in as many passes as there are archives. *)
Lemma nested_archives_flattened levels payload :
  Forall (fun '(n, f) => lower (suffix n) = ext_of f) levels ->
  NoDup (map fst levels) ->
  wf payload = true ->
  writable payload = true ->
  archives_under payload = [] ->
  forall iteration, exists l,
    extract_all_archives_recursively (List.length levels)
      (chain levels payload) iteration = Some (payload, l).
Proof.
  intros Hl Hd Hw Hm Hp.
  induction levels as [|[n f] r IH]; intros iteration.
  - exists [NoMoreArchives iteration]. now apply unpack_nothing_found.
  - inversion Hl as [|? ? Hf Hl']; subst. inversion Hd as [|? ? Hn Hd']; subst.
    assert (Hfresh : ~ In n (map fst (chain r payload))).
    { destruct r as [|[n' f'] r'].
      - simpl. intros Hin.
        pose proof (top_names_not_archives _ _ Hp Hin) as E.
        now rewrite (ext_of_archive _ _ Hf) in E.
      - simpl. intros [E|[]]. apply Hn. now left. }
    destruct (unpack_single_archive n f (chain r payload) Hf
                (wf_chain r payload Hw) (writable_chain r payload Hm) Hfresh)
      as [Ha Hu].
    destruct (IH Hl' Hd' (S iteration)) as [l Hrec].
    exists (PassFound iteration 1 :: [ExtractingNested [n]] ++ l).
    change (chain ((n, f) :: r) payload)
      with [(n, File (Packed f (chain r payload) None))].
    change (List.length ((n, f) :: r)) with (S (List.length r)).
    simpl extract_all_archives_recursively. rewrite Ha, Hu, Hrec.
    reflexivity.
Qed.

(** When the unpacker returns, no file of the tree has an archive
    extension. *)
Lemma unpacker_result_has_no_archive fuel root iteration root' l p c :
  extract_all_archives_recursively fuel root iteration = Some (root', l) ->
  node_at p (Dir root') = Some (File c) ->
  is_archive_name (name_of p) = false.
Proof.
  intros H Hp. apply unpacker_result_scan_empty in H.
  destruct (is_archive_name (name_of p)) eqn:E; [|reflexivity].
  pose proof (archives_under_complete _ _ Hp E) as Hin.
  now rewrite H in Hin.
Qed.

(** C6 fails on an archive nested in an archive of its own name: the
    outer [pack.zip] is unpacked into its own directory, where its member
    [pack.zip] takes its place, and [unlink] then removes that member
    before any pass has opened it.  The unpacker returns the empty tree,
    whatever the number of passes it is given: no archive is left, and
    the content of the inner archive is lost.  Under another name the
    same inner archive is unpacked.  For [bundle.zip] that holds such a
    [pack.zip], [process_archive] finds no content root and writes
    nothing. *)
Theorem nested_archive_of_same_name_is_lost :
  let payload := [("Runtime", Dir [("a.duf", File (Raw "1"))])] in
  (forall fuel iteration, exists l,
      extract_all_archives_recursively (S fuel)
        (chain [("pack.zip", Zip); ("pack.zip", Zip)] payload) iteration
      = Some ([], l))
  /\ (exists l,
        extract_all_archives_recursively 2
          (chain [("pack.zip", Zip); ("inner.zip", Zip)] payload) 0
        = Some (payload, l))
  /\ exists w,
       process_archive 1 "bundle.zip"
         (File (Packed Zip
                  (chain [("pack.zip", Zip); ("pack.zip", Zip)] payload) None))
         false false true (World [] [] 0 [])
       = Some (w, None) /\
       output_dir w = [] /\ In (NoDazFolder "bundle.zip") (console w).
Proof.
  split; [|split].
  - intros fuel iteration. eexists.
    change (extract_all_archives_recursively (S fuel)
              (chain [("pack.zip", Zip); ("pack.zip", Zip)]
                 [("Runtime", Dir [("a.duf", File (Raw "1"))])]) iteration)
      with (match extract_all_archives_recursively fuel [] (S iteration) with
            | Some (root2, l2) =>
                Some (root2,
                      PassFound iteration 1 :: [ExtractingNested ["pack.zip"]] ++ l2)
            | None => None
            end).
    rewrite unpack_nothing_found by reflexivity. reflexivity.
  - eexists. vm_compute. reflexivity.
  - eexists. split; [vm_compute; reflexivity|].
    split; [reflexivity|]. simpl. tauto.
Qed.

(** ** The orchestrator *)

(** C9: when no content root is located in an archive, processing it
    returns normally, prints the warning with the name of the archive,
    leaves the output directory as it was, and the archives after it are
    processed from the world it leaves. *)
Theorem no_root_no_output fuel name archive include_promos keep_temp
  merge_into_content w tempdir l :
  unpacked fuel name archive (fun t1 => [ContentsAfterFirst (map fst t1)])
  = Some ((tempdir, l), None) ->
  find_daz_root tempdir = None ->
  exists w',
    process_archive fuel name archive include_promos keep_temp
      merge_into_content w = Some (w', None) /\
    output_dir w' = output_dir w /\
    In (NoDazFolder name) (console w') /\
    scratch w' =
      (if keep_temp then scratch w ++ [(next_tmp w, tempdir)] else scratch w) /\
    forall rest,
      process_all fuel include_promos keep_temp merge_into_content
        ((name, archive) :: rest) w
      = process_all fuel include_promos keep_temp merge_into_content rest w'.
Proof.
  intros Hu Hf. unfold process_archive. simpl. rewrite Hu, Hf.
  eexists. split; [reflexivity|].
  repeat split.
  - now destruct keep_temp.
  - destruct keep_temp; simpl; rewrite !in_app_iff; simpl; tauto.
  - now destruct keep_temp.
  - intros rest. simpl. unfold process_archive. simpl. now rewrite Hu, Hf.
Qed.

Lemma no_root_no_output_witness :
  exists w',
    process_archive 2 "notes.zip"
      (File (Packed Zip [("readme.txt", File (Raw "hello"))] None))
      false false true (World [("Content", Dir [])] [] 0 [])
    = Some (w', None) /\
    output_dir w' = [("Content", Dir [])] /\
    In (NoDazFolder "notes.zip") (console w') /\
    scratch w' = [] /\
    forall rest,
      process_all 2 false false true
        (("notes.zip",
          File (Packed Zip [("readme.txt", File (Raw "hello"))] None)) :: rest)
        (World [("Content", Dir [])] [] 0 [])
      = process_all 2 false false true rest w'.
Proof.
  apply (@no_root_no_output 2 "notes.zip"
           (File (Packed Zip [("readme.txt", File (Raw "hello"))] None))
           false false true (World [("Content", Dir [])] [] 0 [])
           [("readme.txt", File (Raw "hello"))]
           [ContentsAfterFirst ["readme.txt"]; NoMoreArchives 0]);
    reflexivity.
Defined.

(** C1 fails when the scratch directories are kept: the three blocks of
    [process_archive] each leave one, the sequence of the specification
    leaves one.  The output directory is the same. *)
Theorem process_archive_keeps_three_scratch_dirs :
  let archive :=
    File (Packed Zip [("set", Dir [("Runtime", Dir [("a.duf", File (Raw "1"))])])]
            None) in
  let tempdir := [("set", Dir [("Runtime", Dir [("a.duf", File (Raw "1"))])])] in
  exists w w',
    process_archive 1 "set.zip" archive false true true (World [] [] 0 [])
    = Some (w, None) /\
    per_archive_sequence 1 "set.zip" archive false true true (World [] [] 0 [])
    = Some (w', None) /\
    output_dir w = output_dir w' /\
    scratch w' = [(0, tempdir)] /\
    scratch w = [(0, tempdir); (1, tempdir); (2, tempdir)].
Proof.
  intros archive tempdir. eexists. eexists.
  split; [vm_compute; reflexivity|]. split; [vm_compute; reflexivity|].
  repeat split.
Qed.

(** ** Copying twice

    The copies of a run only add entries and overwrite files, and they
    leave a read-only file as it is.  When the files that are copied can
    be written to, so can their copies; then, once all the entries a
    copy writes to are there, it writes the same files whatever the
    other files hold, and a second run of the same copies, in the same
    order, leaves every file as the first run left it. *)

Lemma node_lookup_ind (P : node -> Prop) :
  (forall c, P (File c)) ->
  (forall es, (forall n x, lookup n es = Some x -> P x) -> P (Dir es)) ->
  forall x, P x.
Proof.
  intros Hf Hd.
  induction x using node_tree_ind with
    (Q := fun es => forall n x, lookup n es = Some x -> P x); auto.
  - intros n x; discriminate.
  - intros m y. simpl. destruct (m =? n)%string; [now intros [= <-]|apply IHx0].
Qed.

Lemma all_files_cons ok n y r :
  all_files ok (Dir ((n, y) :: r)) = all_files ok y && all_files ok (Dir r).
Proof. reflexivity. Qed.

Lemma all_files_true x : all_files (fun _ => true) x = true.
Proof.
  induction x using node_tree_ind with
    (Q := fun ms => all_files (fun _ => true) (Dir ms) = true); auto.
  now rewrite all_files_cons, IHx, IHx0.
Qed.

Lemma all_files_lookup ok es n x :
  all_files ok (Dir es) = true -> lookup n es = Some x -> all_files ok x = true.
Proof.
  induction es as [|[m y] r IH]; [discriminate|].
  rewrite all_files_cons. intros H. apply andb_prop in H. destruct H as [Hy Hr].
  simpl. destruct (n =? m)%string; [now intros [= <-]|auto].
Qed.

#[export] Instance any_file_lasting : Lasting any_file.
Proof. split; intros; exact I. Qed.

#[export] Instance kept_lasting : Lasting kept.
Proof.
  split; unfold kept.
  - intros c. now destruct (read_only c).
  - intros a b c. destruct (read_only a) eqn:Ea.
    + intros ->. now rewrite Ea.
    + now intros ->.
Qed.

Section Shape.

Context {R : content -> content -> Prop} {HR : Lasting R}.

Lemma shape_le_refl x : shape_le R x x.
Proof.
  induction x as [c|es IH] using node_lookup_ind; constructor.
  - apply lasting_refl.
  - intros n t H. congruence.
  - intros n t s Ht Hs. rewrite Ht in Hs. injection Hs as <-. eauto.
Qed.

Lemma shape_le_trans x y :
  shape_le R x y -> forall z, shape_le R y z -> shape_le R x z.
Proof.
  induction 1 as [c c' Hc|et es Hin Hsub IH]; intros z Hz; inversion Hz; subst.
  - constructor. eapply lasting_trans; eauto.
  - constructor.
    + intros n t Ht.
      destruct (lookup n es) as [s|] eqn:Es; [|now apply Hin in Ht].
      eauto.
    + intros n t z Ht Hz'.
      destruct (lookup n es) as [s|] eqn:Es; [|now apply Hin in Ht].
      eapply IH; eauto.
Qed.

Lemma shape_le_lookup et es n t :
  shape_le R (Dir et) (Dir es) -> lookup n et = Some t ->
  exists s, lookup n es = Some s /\ shape_le R t s.
Proof.
  intros H Ht. inversion H as [|? ? Hin Hsub]; subst.
  destruct (lookup n es) as [s|] eqn:Es; [|now apply Hin in Ht].
  eauto.
Qed.

Lemma shape_le_file_inv c s :
  shape_le R (File c) s -> exists c', s = File c' /\ R c c'.
Proof. inversion 1; eauto. Qed.

Lemma shape_le_dir_inv et s : shape_le R (Dir et) s -> exists es, s = Dir es.
Proof. inversion 1; eauto. Qed.

Lemma shape_le_set n new es :
  (forall old, lookup n es = Some old -> shape_le R old new) ->
  shape_le R (Dir es) (Dir (set n new es)).
Proof.
  intros H. constructor.
  - intros m t Ht. destruct (String.eqb_spec m n) as [->|Hne].
    + now rewrite lookup_set_same.
    + rewrite lookup_set_other by assumption. congruence.
  - intros m t s Ht. destruct (String.eqb_spec m n) as [->|Hne].
    + rewrite lookup_set_same. intros [= <-]. auto.
    + rewrite lookup_set_other by assumption. intros Hs.
      rewrite Ht in Hs. injection Hs as <-. apply shape_le_refl.
Qed.

Lemma shape_le_node_at p :
  forall x y a,
    shape_le R x y -> node_at p x = Some a ->
    exists b, node_at p y = Some b /\ shape_le R a b.
Proof.
  induction p as [|n q IH]; intros x y a Hle; simpl.
  - intros [= <-]. eauto.
  - destruct x as [c|es]; [discriminate|].
    destruct (shape_le_dir_inv Hle) as [es' ->].
    destruct (lookup n es) as [t|] eqn:E; [|discriminate].
    destruct (shape_le_lookup n Hle E) as (s & -> & Hts).
    now apply IH.
Qed.

Lemma shape_le_is_dir a b : shape_le R a b -> is_dir b = is_dir a.
Proof. now destruct 1. Qed.

(** *** The copy of an entry only adds entries

    [ok] holds of the files that are copied, and [R] of a file that can
    be written to and such a file in its place. *)

Variable ok : content -> bool.
Hypothesis R_write :
  forall c0 c, ok c = true -> read_only c0 = false -> R c0 c.

Lemma copy2_grows c n dst :
  ok c = true -> shape_le R (Dir dst) (Dir (fst (copy2 c n dst))).
Proof.
  intros Hc. unfold copy2.
  destruct (lookup n dst) as [[c0|sub]|] eqn:E; simpl.
  - destruct (read_only c0) eqn:Ero; simpl; [apply shape_le_refl|].
    apply shape_le_set. intros old Ho. rewrite E in Ho. injection Ho as <-.
    constructor. now apply R_write.
  - destruct (lookup n sub) as [[c1|sub1]|] eqn:E1; simpl.
    + destruct (read_only c1) eqn:Ero; simpl; [apply shape_le_refl|].
      apply shape_le_set. intros old Ho. rewrite E in Ho. injection Ho as <-.
      apply shape_le_set. intros old Ho. rewrite E1 in Ho.
      injection Ho as <-. constructor. now apply R_write.
    + apply shape_le_refl.
    + apply shape_le_set. intros old Ho. rewrite E in Ho. injection Ho as <-.
      apply shape_le_set. intros old Ho. congruence.
  - apply shape_le_set. intros old Ho. congruence.
Qed.

Lemma copy_entry_grows x :
  all_files ok x = true ->
  forall n dst, shape_le R (Dir dst) (Dir (fst (copy_entry x n dst))).
Proof.
  induction x using node_tree_ind with
    (Q := fun ms => all_files ok (Dir ms) = true -> forall dst,
              shape_le R (Dir dst)
                (Dir (fst (each_collect (fun '(m, y) => copy_entry y m) ms dst)))).
  - intros Hc n dst. now apply copy2_grows.
  - intros Hok n dst. simpl.
    destruct (lookup n dst) as [[c0|sub]|] eqn:E; simpl.
    + apply shape_le_refl.
    + specialize (IHx Hok sub). split_loop sub' e. simpl in *.
      apply shape_le_set. intros old Ho. rewrite E in Ho.
      now injection Ho as <-.
    + split_loop sub' e. simpl.
      apply shape_le_set. intros old Ho. congruence.
  - intros _ dst. apply shape_le_refl.
  - rewrite all_files_cons. intros Hok dst. apply andb_prop in Hok.
    destruct Hok as [Hx Hr]. simpl.
    specialize (IHx Hx n dst).
    destruct (copy_entry x n dst) as [d1 e1]. simpl in IHx.
    specialize (IHx0 Hr d1). split_loop d2 e2. simpl in *.
    eapply shape_le_trans; eauto.
Qed.

Lemma each_collect_grows ms :
  all_files ok (Dir ms) = true ->
  forall dst,
    shape_le R (Dir dst)
      (Dir (fst (each_collect (fun '(m, y) => copy_entry y m) ms dst))).
Proof.
  induction ms as [|[n x] r IH]; intros Hok dst; simpl.
  - apply shape_le_refl.
  - rewrite all_files_cons in Hok. apply andb_prop in Hok.
    destruct Hok as [Hx Hr].
    pose proof (copy_entry_grows x Hx n dst) as H.
    destruct (copy_entry x n dst) as [d1 e1]. simpl in H.
    specialize (IH Hr d1). split_loop d2 e2. simpl in *.
    eapply shape_le_trans; eauto.
Qed.

Lemma copy_daz_root_grows source_root include_promos :
  all_files ok (Dir source_root) = true ->
  forall out,
    shape_le R (Dir out)
      (Dir (fst (copy_daz_root source_root out include_promos))).
Proof.
  induction source_root as [|[n item] rest IH]; intros Hok out.
  - apply shape_le_refl.
  - rewrite all_files_cons in Hok. apply andb_prop in Hok.
    destruct Hok as [Hx Hr]. rewrite copy_daz_root_cons.
    destruct (negb include_promos && is_promo_name n); [now apply IH|].
    pose proof (copy_entry_grows item Hx n out) as H.
    destruct (copy_entry item n out) as [out1 [e|]]; simpl in *;
      [assumption|].
    eapply shape_le_trans; eauto.
Qed.

End Shape.

(** Whatever is copied, every entry of the destination stays, with its
    kind. *)
Lemma copy_daz_root_keeps_shape source_root include_promos out :
  shape_le any_file (Dir out)
    (Dir (fst (copy_daz_root source_root out include_promos))).
Proof.
  apply (copy_daz_root_grows (fun _ => true)).
  - intros; exact I.
  - apply all_files_true.
Qed.

Lemma kept_write c0 c :
  negb (read_only c) = true -> read_only c0 = false -> kept c0 c.
Proof.
  unfold kept. intros Hc ->. now apply negb_true_iff in Hc.
Qed.

Lemma writable_lookup es n x :
  writable es = true -> lookup n es = Some x ->
  all_files (fun c => negb (read_only c)) x = true.
Proof. apply all_files_lookup. Qed.

Lemma mixes_refl ot s : mixes ot s s.
Proof.
  revert ot. induction s as [c|es IH] using node_lookup_ind; intros ot.
  - constructor.
  - constructor; [reflexivity|].
    intros n u s Hu Hs. rewrite Hu in Hs. injection Hs as <-. eauto.
Qed.

Lemma mixes_file_inv ot u c : mixes ot u (File c) -> exists cu, u = File cu.
Proof. inversion 1; eauto. Qed.

Lemma mixes_dir_inv ot u es :
  mixes ot u (Dir es) ->
  exists eu, u = Dir eu /\ mixes (Some (Dir (listing ot))) (Dir eu) (Dir es).
Proof.
  inversion 1 as [| |? eu ? Hn Hl]; subst.
  exists eu. split; [reflexivity|]. now constructor.
Qed.

Lemma mixes_lookup T U S n s :
  mixes (Some (Dir T)) (Dir U) (Dir S) -> lookup n S = Some s ->
  exists u, lookup n U = Some u /\ mixes (lookup n T) u s.
Proof.
  inversion 1 as [| |? ? ? Hn Hl]; subst. intros Hs.
  destruct (lookup n U) as [u|] eqn:Eu.
  - exists u. split; [reflexivity|]. now apply Hl.
  - apply lookup_none_names in Eu. rewrite Hn in Eu.
    apply lookup_none_names in Eu. congruence.
Qed.

Lemma mixes_set n T U S t' u' :
  mixes (Some (Dir T)) (Dir U) (Dir S) ->
  lookup n U <> None ->
  (forall s, lookup n S = Some s -> mixes (Some t') u' s) ->
  mixes (Some (Dir (set n t' T))) (Dir (set n u' U)) (Dir S).
Proof.
  inversion 1 as [| |? ? ? Hn Hl]; subst. intros Hu Hnew.
  constructor.
  - now rewrite names_set_present.
  - intros m u s. simpl. destruct (String.eqb_spec m n) as [->|Hne].
    + rewrite !lookup_set_same. intros [= <-]. auto.
    + rewrite !lookup_set_other by assumption. apply Hl.
Qed.

Lemma wf_lookup es n x : wf es = true -> lookup n es = Some x -> wf_node x = true.
Proof.
  induction es as [|[m y] r IH]; simpl; [discriminate|].
  change (negb (mem m (map fst r)) && wf_node y && wf r = true -> 
          (if (n =? m)%string then Some y else lookup n r) = Some x ->
          wf_node x = true).
  intros Hw. apply andb_prop in Hw. destruct Hw as [Hw Hr].
  apply andb_prop in Hw. destruct Hw as [_ Hy].
  destruct (n =? m)%string; [now intros [= <-]|auto].
Qed.

Lemma entries_ext a :
  forall b, map fst a = map fst b -> wf b = true ->
       (forall n x y, lookup n a = Some x -> lookup n b = Some y -> x = y) ->
       a = b.
Proof.
  induction a as [|[n x] r IH]; intros [|[m y] r'] Hn Hw Hl;
    try discriminate; [reflexivity|].
  simpl in Hn. injection Hn as -> Hn.
  rewrite wf_cons in Hw. apply andb_prop in Hw. destruct Hw as [Hw Hr].
  apply andb_prop in Hw. destruct Hw as [Hm _].
  apply negb_true_iff, mem_false_In in Hm.
  assert (x = y) as ->.
  { apply (Hl m); simpl; now rewrite String.eqb_refl. }
  f_equal. apply IH; try assumption.
  intros k u v Hu Hv. apply (Hl k); simpl.
  - destruct (String.eqb_spec k m) as [->|]; [|assumption].
    apply lookup_In, (in_map fst) in Hv. contradiction.
  - destruct (String.eqb_spec k m) as [->|]; [|assumption].
    apply lookup_In, (in_map fst) in Hv. contradiction.
Qed.

(** When the first of the two trees mixed is the second, the mix is
    that tree. *)
Lemma mixes_final s : wf_node s = true -> forall u, mixes (Some s) u s -> u = s.
Proof.
  induction s as [c|es IH] using node_lookup_ind; intros Hw u H.
  - inversion H; subst; congruence.
  - inversion H as [| |? eu ? Hn Hl]; subst. f_equal.
    apply entries_ext; try assumption.
    intros n x y Hx Hy. specialize (Hl n x y Hx Hy). simpl in Hl.
    rewrite Hy in Hl. eapply IH; eauto.
    eapply wf_lookup; eauto.
Qed.

Lemma names_set_In m n x es :
  In m (map fst (set n x es)) -> In m (map fst es) \/ m = n.
Proof.
  induction es as [|[k y] r IH]; simpl.
  - intros [H|[]]; auto.
  - destruct (n =? k)%string; simpl; [tauto|].
    intros [H|H]; [auto|]. destruct (IH H); auto.
Qed.

Lemma wf_set n x es :
  wf es = true -> wf_node x = true -> wf (set n x es) = true.
Proof.
  intros Hw Hx. induction es as [|[m y] r IH]; simpl.
  - rewrite wf_cons. simpl. now rewrite Hx.
  - rewrite wf_cons in Hw. apply andb_prop in Hw. destruct Hw as [Hw Hr].
    apply andb_prop in Hw. destruct Hw as [Hm Hy].
    destruct (String.eqb_spec n m) as [->|Hne]; rewrite wf_cons.
    + now rewrite Hm, Hx, Hr.
    + rewrite Hy, IH by assumption.
      apply negb_true_iff, mem_false_In in Hm.
      assert (Hm' : ~ In m (map fst (set n x r))).
      { intros H. apply names_set_In in H. destruct H; congruence. }
      apply mem_false_In in Hm'. now rewrite Hm'.
Qed.

Lemma set_set n x y es : set n y (set n x es) = set n y es.
Proof.
  induction es as [|[m z] r IH]; simpl.
  - now rewrite String.eqb_refl.
  - destruct (String.eqb_spec n m) as [->|Hne]; simpl.
    + now rewrite String.eqb_refl.
    + destruct (String.eqb_spec n m); [contradiction|]. now rewrite IH.
Qed.

(** *** The copy of an entry keeps trees well formed *)

Lemma copy2_wf c n dst : wf dst = true -> wf (fst (copy2 c n dst)) = true.
Proof.
  intros Hw. unfold copy2.
  destruct (lookup n dst) as [[c0|sub]|] eqn:E; simpl.
  - destruct (read_only c0); simpl; [assumption|now apply wf_set].
  - assert (Hs : wf sub = true) by (eapply (wf_lookup dst); eauto).
    destruct (lookup n sub) as [[c1|sub1]|] eqn:E1; simpl; try assumption.
    + destruct (read_only c1); simpl; [assumption|].
      apply wf_set; [assumption|]. now apply (wf_set n (File c) sub).
    + apply wf_set; [assumption|]. now apply (wf_set n (File c) sub).
  - now apply wf_set.
Qed.

Lemma copy_entry_wf x :
  forall n dst, wf dst = true -> wf (fst (copy_entry x n dst)) = true.
Proof.
  induction x using node_tree_ind with
    (Q := fun ms => forall dst,
              wf dst = true ->
              wf (fst (each_collect (fun '(m, y) => copy_entry y m) ms dst))
              = true).
  - intros n dst. apply copy2_wf.
  - intros n dst Hw. simpl.
    destruct (lookup n dst) as [[c0|sub]|] eqn:E; simpl.
    + assumption.
    + specialize (IHx sub (wf_lookup dst n Hw E)).
      split_loop sub' e. simpl in *. now apply wf_set.
    + specialize (IHx [] eq_refl).
      split_loop sub' e. simpl in *. now apply wf_set.
  - intros dst Hw. assumption.
  - intros dst Hw. simpl.
    specialize (IHx n dst Hw).
    destruct (copy_entry x n dst) as [d1 e1]. simpl in IHx.
    specialize (IHx0 d1 IHx). split_loop d2 e2. assumption.
Qed.

Lemma copy_daz_root_wf source_root include_promos :
  forall out,
    wf out = true ->
    wf (fst (copy_daz_root source_root out include_promos)) = true.
Proof.
  induction source_root as [|[n item] rest IH]; intros out Hw.
  - assumption.
  - rewrite copy_daz_root_cons.
    destruct (negb include_promos && is_promo_name n); [now apply IH|].
    pose proof (copy_entry_wf item n out Hw) as H.
    destruct (copy_entry item n out) as [out1 [e|]]; simpl in *;
      [assumption|]. now apply IH.
Qed.

(** *** The copy of an entry writes the same files in a mix

    [T] is the destination before a copy of the first run, [S] what the
    first run leaves, and [U] the destination before the same copy of
    the second run.  The files that are copied can be written to. *)

Lemma locked_file_mixes n c0 T U S :
  lookup n T = Some (File c0) -> read_only c0 = true ->
  mixes (Some (Dir T)) (Dir U) (Dir S) ->
  shape_le kept (Dir T) (Dir S) ->
  lookup n U = Some (File c0).
Proof.
  intros HT Hro HM HS.
  destruct (shape_le_lookup n HS HT) as (s & Hs & Hle).
  apply shape_le_file_inv in Hle. destruct Hle as (c' & -> & Hk).
  unfold kept in Hk. rewrite Hro in Hk. subst c'.
  destruct (mixes_lookup n HM Hs) as (u & Hu & Hmu).
  rewrite Hu. inversion Hmu; subst; congruence.
Qed.

Lemma write_file_mixes c n T U S :
  read_only c = false ->
  (forall c0, lookup n T = Some (File c0) -> read_only c0 = false) ->
  mixes (Some (Dir T)) (Dir U) (Dir S) ->
  shape_le kept (Dir (set n (File c) T)) (Dir S) ->
  (exists cu, lookup n U = Some (File cu) /\ read_only cu = false) /\
  mixes (Some (Dir (set n (File c) T))) (Dir (set n (File c) U)) (Dir S).
Proof.
  intros Hc HT HM HS.
  destruct (shape_le_lookup n HS (lookup_set_same n (File c) T))
    as (s & Hs & Hle).
  apply shape_le_file_inv in Hle. destruct Hle as (c' & -> & Hk).
  unfold kept in Hk. rewrite Hc in Hk.
  destruct (mixes_lookup n HM Hs) as (u & Hu & Hmu).
  assert (Hcu : exists cu, u = File cu /\ read_only cu = false).
  { inversion Hmu as [ot c1|c1 c2 Hot|]; subst; eauto. }
  destruct Hcu as (cu & -> & Hcu).
  split; [eauto|].
  apply mixes_set; [assumption|congruence|].
  intros s Hs'. rewrite Hs in Hs'. injection Hs' as <-. constructor.
Qed.

Lemma into_dir_mixes n T U S dT :
  mixes (Some (Dir T)) (Dir U) (Dir S) ->
  shape_le kept (Dir (set n (Dir dT) T)) (Dir S) ->
  exists eu es,
    lookup n U = Some (Dir eu) /\ lookup n S = Some (Dir es) /\
    mixes (Some (Dir (listing (lookup n T)))) (Dir eu) (Dir es) /\
    shape_le kept (Dir dT) (Dir es).
Proof.
  intros HM HS.
  destruct (shape_le_lookup n HS (lookup_set_same n (Dir dT) T))
    as (s & Hs & Hle).
  destruct (shape_le_dir_inv Hle) as [es ->].
  destruct (mixes_lookup n HM Hs) as (u & Hu & Hmu).
  apply mixes_dir_inv in Hmu. destruct Hmu as (eu & -> & Hmu).
  exists eu, es. auto.
Qed.

Lemma in_dir_mixes n T U S subT :
  lookup n T = Some (Dir subT) ->
  mixes (Some (Dir T)) (Dir U) (Dir S) ->
  shape_le kept (Dir T) (Dir S) ->
  exists eu es,
    lookup n U = Some (Dir eu) /\ lookup n S = Some (Dir es) /\
    mixes (Some (Dir subT)) (Dir eu) (Dir es) /\
    shape_le kept (Dir subT) (Dir es).
Proof.
  intros ET HM HS.
  destruct (shape_le_lookup n HS ET) as (s & Hs & Hle).
  destruct (shape_le_dir_inv Hle) as [es ->].
  destruct (mixes_lookup n HM Hs) as (u & Hu & Hmu).
  apply mixes_dir_inv in Hmu. destruct Hmu as (eu & -> & Hmu).
  rewrite ET in Hmu. exists eu, es. auto.
Qed.

Lemma set_dir_mixes n T U S dT dU es :
  mixes (Some (Dir T)) (Dir U) (Dir S) ->
  lookup n U <> None -> lookup n S = Some (Dir es) ->
  mixes (Some (Dir dT)) (Dir dU) (Dir es) ->
  mixes (Some (Dir (set n (Dir dT) T))) (Dir (set n (Dir dU) U)) (Dir S).
Proof.
  intros HM Hu Hs Hd. apply mixes_set; try assumption.
  intros s Hs'. rewrite Hs in Hs'. now injection Hs' as <-.
Qed.

Lemma copy2_mixes c n T U S :
  read_only c = false ->
  mixes (Some (Dir T)) (Dir U) (Dir S) ->
  shape_le kept (Dir (fst (copy2 c n T))) (Dir S) ->
  mixes (Some (Dir (fst (copy2 c n T)))) (Dir (fst (copy2 c n U))) (Dir S) /\
  snd (copy2 c n T) = snd (copy2 c n U).
Proof.
  intros Hc HM HS. unfold copy2 in *.
  destruct (lookup n T) as [[c0|subT]|] eqn:ET.
  - destruct (read_only c0) eqn:Ero; simpl in HS.
    + rewrite (locked_file_mixes n ET Ero HM HS), Ero. simpl. auto.
    + destruct (@write_file_mixes c n T U S Hc) as [(cu & Hu & Hcu) Hm];
        try assumption.
      { intros c1 E1. rewrite ET in E1. now injection E1 as <-. }
      rewrite Hu, Hcu. simpl. auto.
  - destruct (lookup n subT) as [[c1|s1]|] eqn:E1.
    + destruct (read_only c1) eqn:Ero; simpl in HS.
      * destruct (in_dir_mixes n ET HM HS) as (eu & es & Hu & Hs & Hm & Hle).
        rewrite Hu, (locked_file_mixes n E1 Ero Hm Hle), Ero. simpl. auto.
      * destruct (@into_dir_mixes _ _ _ _ _ HM HS)
          as (eu & es & Hu & Hs & Hm & Hle).
        rewrite ET in Hm. simpl in Hm.
        destruct (@write_file_mixes c n subT eu es Hc) as [(cu & Hcu & Hw) Hm'];
          try assumption.
        { intros c2 E2. rewrite E1 in E2. now injection E2 as <-. }
        rewrite Hu, Hcu, Hw. simpl. split; [|reflexivity].
        eapply set_dir_mixes; eauto. congruence.
    + simpl in HS.
      destruct (in_dir_mixes n ET HM HS) as (eu & es & Hu & Hs & Hm & Hle).
      destruct (in_dir_mixes n E1 Hm Hle) as (eu2 & es2 & Hu2 & _).
      rewrite Hu, Hu2. simpl. auto.
    + simpl in HS.
      destruct (@into_dir_mixes _ _ _ _ _ HM HS)
        as (eu & es & Hu & Hs & Hm & Hle).
      rewrite ET in Hm. simpl in Hm.
      destruct (@write_file_mixes c n subT eu es Hc) as [(cu & Hcu & Hw) Hm'];
        try assumption.
      { intros c2 E2. congruence. }
      rewrite Hu, Hcu, Hw. simpl. split; [|reflexivity].
      eapply set_dir_mixes; eauto. congruence.
  - simpl in HS.
    destruct (@write_file_mixes c n T U S Hc) as [(cu & Hu & Hcu) Hm];
      try assumption.
    { intros c1 E1. congruence. }
    rewrite Hu, Hcu. simpl. auto.
Qed.

(** Naming the result of the loop over the members for one start. *)
Ltac name_loop l s d e E :=
  match goal with
  | |- context [each_collect ?f l s] =>
      destruct (each_collect f l s) as [d e] eqn:E
  end.

Lemma copy_entry_mixes x :
  all_files (fun c => negb (read_only c)) x = true ->
  forall n T U S,
    mixes (Some (Dir T)) (Dir U) (Dir S) ->
    shape_le kept (Dir (fst (copy_entry x n T))) (Dir S) ->
    mixes (Some (Dir (fst (copy_entry x n T))))
      (Dir (fst (copy_entry x n U))) (Dir S) /\
    snd (copy_entry x n T) = snd (copy_entry x n U).
Proof.
  induction x using node_tree_ind with
    (Q := fun ms => writable ms = true -> forall T U S,
              mixes (Some (Dir T)) (Dir U) (Dir S) ->
              shape_le kept
                (Dir (fst (each_collect (fun '(m, y) => copy_entry y m) ms T)))
                (Dir S) ->
              mixes
                (Some (Dir (fst (each_collect (fun '(m, y) => copy_entry y m)
                                   ms T))))
                (Dir (fst (each_collect (fun '(m, y) => copy_entry y m) ms U)))
                (Dir S) /\
              snd (each_collect (fun '(m, y) => copy_entry y m) ms T)
              = snd (each_collect (fun '(m, y) => copy_entry y m) ms U)).
  - intros Hc n T U S. apply copy2_mixes. now apply negb_true_iff in Hc.
  - intros Hok n T U S HM HS. simpl in *.
    destruct (lookup n T) as [[c0|subT]|] eqn:ET.
    + simpl in HS.
      destruct (shape_le_lookup n HS ET) as (s & Hs & Hle).
      apply shape_le_file_inv in Hle. destruct Hle as (c' & -> & _).
      destruct (mixes_lookup n HM Hs) as (u & Hu & Hmu).
      apply mixes_file_inv in Hmu. destruct Hmu as [cu ->].
      rewrite Hu. simpl. auto.
    + revert HS. name_loop es subT dT eT ErT. simpl. intros HS.
      destruct (@into_dir_mixes n T U S dT HM HS)
        as (eu & es' & Hu & Hs & Hm & Hle).
      rewrite ET in Hm. simpl in Hm.
      specialize (IHx Hok subT eu es' Hm). rewrite ErT in IHx.
      specialize (IHx Hle). rewrite Hu.
      name_loop es eu dU eU ErU. simpl in *.
      destruct IHx as [IH1 IH2]. split; [|assumption].
      eapply set_dir_mixes; eauto. congruence.
    + revert HS. name_loop es (@nil (string * node)) dT eT ErT.
      simpl. intros HS.
      destruct (@into_dir_mixes n T U S dT HM HS)
        as (eu & es' & Hu & Hs & Hm & Hle).
      rewrite ET in Hm. simpl in Hm.
      specialize (IHx Hok [] eu es' Hm). rewrite ErT in IHx.
      specialize (IHx Hle). rewrite Hu.
      name_loop es eu dU eU ErU. simpl in *.
      destruct IHx as [IH1 IH2]. split; [|assumption].
      eapply set_dir_mixes; eauto. congruence.
  - intros _ T U S HM HS. simpl. auto.
  - rewrite writable_cons. intros Hok T U S HM HS.
    apply andb_prop in Hok. destruct Hok as [Hx Hr]. simpl in *.
    specialize (IHx Hx n T U S HM).
    pose proof (each_collect_grows _ kept_write r Hr (fst (copy_entry x n T)))
      as Hg.
    destruct (copy_entry x n T) as [T1 e1].
    destruct (copy_entry x n U) as [U1 e1'].
    specialize (IHx0 Hr T1 U1 S). simpl in Hg, IHx.
    revert HS Hg IHx0. name_loop r T1 T2 e2 ErT. simpl. intros HS Hg IH2.
    destruct (IHx (shape_le_trans Hg HS)) as [Hm1 He1].
    destruct (IH2 Hm1 HS) as [Hm2 He2].
    name_loop r U1 U2 e2' ErU. simpl in *. subst. auto.
Qed.

Lemma copy_daz_root_mixes source_root include_promos :
  writable source_root = true ->
  forall T U S,
    mixes (Some (Dir T)) (Dir U) (Dir S) ->
    shape_le kept
      (Dir (fst (copy_daz_root source_root T include_promos))) (Dir S) ->
    mixes (Some (Dir (fst (copy_daz_root source_root T include_promos))))
      (Dir (fst (copy_daz_root source_root U include_promos))) (Dir S) /\
    snd (copy_daz_root source_root T include_promos)
    = snd (copy_daz_root source_root U include_promos).
Proof.
  induction source_root as [|[n item] rest IH]; intros Hok T U S HM HS.
  - simpl. auto.
  - rewrite writable_cons in Hok. apply andb_prop in Hok.
    destruct Hok as [Hx Hr].
    rewrite !copy_daz_root_cons in *.
    destruct (negb include_promos && is_promo_name n); [now apply IH|].
    pose proof (copy_entry_mixes item Hx n HM) as H1.
    pose proof (copy_daz_root_grows _ kept_write rest include_promos Hr
                  (fst (copy_entry item n T))) as Hg.
    destruct (copy_entry item n T) as [T1 [e1|]];
      destruct (copy_entry item n U) as [U1 e1']; simpl in *.
    + destruct (H1 HS) as [Hm <-]. auto.
    + destruct (H1 (shape_le_trans Hg HS)) as [Hm <-]. now apply IH.
Qed.

(** *** The copy into a directory of the output is a coherent step *)

Lemma wf_listing es n : wf es = true -> wf (listing (lookup n es)) = true.
Proof.
  intros Hw. destruct (lookup n es) as [[c|sub]|] eqn:E; try reflexivity.
  apply (wf_lookup es n Hw E).
Qed.

Lemma copy_into_coherent target include_promos daz_root :
  writable daz_root = true ->
  coherent (copy_into target include_promos daz_root).
Proof.
  intros Hok. unfold copy_into. split.
  - intros T.
    destruct (lookup target T) as [[c|sub]|] eqn:E; simpl.
    + apply shape_le_refl.
    + apply shape_le_set. intros old Ho. rewrite E in Ho.
      injection Ho as <-. now apply (copy_daz_root_grows _ kept_write).
    + apply shape_le_set. intros old Ho. congruence.
  - intros T Hw.
    pose proof (wf_listing T target Hw) as Hl.
    destruct (lookup target T) as [[c|sub]|] eqn:E; simpl in *.
    + assumption.
    + apply wf_set; [assumption|]. now apply copy_daz_root_wf.
    + apply wf_set; [assumption|]. now apply copy_daz_root_wf.
  - intros T U S HM HS.
    destruct (lookup target T) as [[c|sub]|] eqn:E.
    + simpl in HS.
      destruct (shape_le_lookup target HS E) as (s & Hs & Hle).
      apply shape_le_file_inv in Hle. destruct Hle as (c' & -> & _).
      destruct (mixes_lookup target HM Hs) as (u & Hu & Hmu).
      apply mixes_file_inv in Hmu. destruct Hmu as [cu ->].
      rewrite Hu. simpl. auto.
    + simpl in HS.
      destruct (@into_dir_mixes target T U S _ HM HS)
        as (eu & es & Hu & Hs & Hm & Hle).
      rewrite E in Hm. simpl in Hm.
      destruct (copy_daz_root_mixes daz_root include_promos Hok Hm Hle)
        as [Hm' He].
      rewrite Hu. simpl. split; [|assumption].
      eapply set_dir_mixes; eauto. congruence.
    + simpl in HS.
      destruct (@into_dir_mixes target T U S _ HM HS)
        as (eu & es & Hu & Hs & Hm & Hle).
      rewrite E in Hm. simpl in Hm.
      destruct (copy_daz_root_mixes daz_root include_promos Hok Hm Hle)
        as [Hm' He].
      rewrite Hu. simpl. split; [|assumption].
      eapply set_dir_mixes; eauto. congruence.
Qed.

(** [place] is the copy into the target, followed in per-archive mode
    by [make_archive]. *)
Lemma place_out_copy_into archive_name include_promos merge daz_root out :
  place_out archive_name include_promos merge daz_root out =
  let target :=
    if merge then "Content" else (stem archive_name ++ "_normalized")%string in
  match copy_into target include_promos daz_root out with
  | (o, Some e) => (o, Some e)
  | (o, None) => if merge then (o, None) else make_archive target o
  end.
Proof.
  unfold place_out, place, copy_into, mkdir, dir_at. simpl.
  destruct (lookup (if merge then "Content"
                    else (stem archive_name ++ "_normalized")%string) out)
    as [[c|sub]|] eqn:E; simpl.
  - reflexivity.
  - rewrite E.
    destruct (copy_daz_root daz_root sub include_promos) as [d [e|]];
      simpl; [reflexivity|].
    destruct merge; [reflexivity|]. now destruct (make_archive _ _) as [o [e|]].
  - rewrite lookup_set_same.
    destruct (copy_daz_root daz_root [] include_promos) as [d [e|]];
      simpl; rewrite set_set; [reflexivity|].
    destruct merge; [reflexivity|]. now destruct (make_archive _ _) as [o [e|]].
Qed.

Lemma place_merge_coherent archive_name include_promos daz_root :
  writable daz_root = true ->
  coherent (place_out archive_name include_promos true daz_root).
Proof.
  intros Hok.
  pose proof (copy_into_coherent "Content" include_promos daz_root Hok) as H.
  assert (E : forall out,
             place_out archive_name include_promos true daz_root out
             = copy_into "Content" include_promos daz_root out).
  { intros out. rewrite place_out_copy_into. simpl.
    now destruct (copy_into "Content" include_promos daz_root out)
      as [o [e|]]. }
  destruct H as [H1 H2 H3]. split.
  - intros T. rewrite E. apply H1.
  - intros T. rewrite E. apply H2.
  - intros T U S. rewrite !E. apply H3.
Qed.

(** *** Runs of coherent steps *)

Lemma run_steps_cons g gs out :
  run_steps (g :: gs) out =
  match g out with
  | (o, None) => run_steps gs o
  | (o, Some e) => (o, Some e)
  end.
Proof. reflexivity. Qed.

Arguments run_steps : simpl never.

Lemma run_steps_grows gs :
  Forall coherent gs ->
  forall T, shape_le kept (Dir T) (Dir (fst (run_steps gs T))).
Proof.
  induction 1 as [|g gs Hg _ IH]; intros T.
  - apply shape_le_refl.
  - rewrite run_steps_cons. pose proof (coherent_grows Hg T) as H1.
    destruct (g T) as [o [e|]]; simpl in *; [assumption|].
    eapply shape_le_trans; eauto.
Qed.

Lemma run_steps_wf gs :
  Forall coherent gs ->
  forall T, wf T = true -> wf (fst (run_steps gs T)) = true.
Proof.
  induction 1 as [|g gs Hg _ IH]; intros T Hw.
  - assumption.
  - rewrite run_steps_cons. pose proof (coherent_wf Hg T Hw) as H1.
    destruct (g T) as [o [e|]]; simpl in *; auto.
Qed.

Lemma run_steps_mixes gs :
  Forall coherent gs ->
  forall T U S,
    mixes (Some (Dir T)) (Dir U) (Dir S) ->
    shape_le kept (Dir (fst (run_steps gs T))) (Dir S) ->
    mixes (Some (Dir (fst (run_steps gs T)))) (Dir (fst (run_steps gs U)))
      (Dir S) /\
    snd (run_steps gs T) = snd (run_steps gs U).
Proof.
  induction 1 as [|g gs Hg Hgs IH]; intros T U S HM HS.
  - simpl. auto.
  - rewrite !run_steps_cons in *.
    pose proof (coherent_mixes Hg HM) as H1.
    pose proof (run_steps_grows Hgs (fst (g T))) as Hgr.
    destruct (g T) as [T1 [e1|]]; destruct (g U) as [U1 e1']; simpl in *.
    + destruct (H1 HS) as [Hm <-]. auto.
    + destruct (H1 (shape_le_trans Hgr HS)) as [Hm <-]. now apply IH.
Qed.

(** Running the same coherent steps a second time changes nothing. *)
Lemma run_steps_twice gs out :
  Forall coherent gs -> wf out = true ->
  run_steps gs (fst (run_steps gs out)) = run_steps gs out.
Proof.
  intros Hg Hw.
  destruct (@run_steps_mixes gs Hg out (fst (run_steps gs out))
              (fst (run_steps gs out))) as [Hm He].
  - apply mixes_refl.
  - apply shape_le_refl.
  - apply mixes_final in Hm; [|now apply run_steps_wf].
    injection Hm as Hm.
    destruct (run_steps gs (fst (run_steps gs out))) as [o e].
    destruct (run_steps gs out) as [o' e']. simpl in *. congruence.
Qed.

(** *** [process_archive] in merge mode as steps on the output directory *)

Lemma unpacked_any fuel name archive between :
  match unpacked fuel name archive between with
  | None => unpacked fuel name archive (fun _ => []) = None
  | Some ((t, _), e) =>
      e = None /\
      exists l, unpacked fuel name archive (fun _ => []) = Some ((t, l), None)
  end.
Proof.
  unfold unpacked.
  pose proof (extract_archive_never_raises [name] (Some archive) []) as H.
  destruct (extract_archive [name] (Some archive) []) as [[t1 l1] e].
  simpl in H. subst e.
  destruct (extract_all_archives_recursively fuel t1 0) as [[t2 l2]|]; eauto.
Qed.

Lemma deliver_out name include_promos keep_temp merge tmp tempdir p w next :
  let g := place_out name include_promos merge (dir_at p tempdir) in
  match snd (g (output_dir w)) with
  | Some e =>
      exists w1,
        deliver name include_promos keep_temp merge tmp tempdir p w next
        = Some (w1, Some e) /\
        output_dir w1 = fst (g (output_dir w))
  | None =>
      exists w1,
        deliver name include_promos keep_temp merge tmp tempdir p w next
        = next w1 /\
        output_dir w1 = fst (g (output_dir w)) /\
        scratch w1 =
          (if keep_temp then scratch w ++ [(tmp, tempdir)] else scratch w)
  end.
Proof.
  unfold deliver, place_out. simpl.
  destruct (place name include_promos merge (dir_at p tempdir) (output_dir w))
    as [[o l] [e|]]; simpl; eexists; split; try reflexivity.
  now destruct keep_temp.
Qed.

Section Blocks.

Variables (fuel : nat) (name : string) (archive : node).
Variables (include_promos keep_temp merge : bool).
Variables (tempdir : entries) (l0 : list event) (p : path).
Hypothesis Hunpacked :
  unpacked fuel name archive (fun _ => []) = Some ((tempdir, l0), None).
Hypothesis Hfound : find_daz_root tempdir = Some p.

Let g : step := place_out name include_promos merge (dir_at p tempdir).

Ltac use_deliver H :=
  match goal with
  | |- context [deliver _ _ _ _ ?tmp _ _ ?w0 ?next] =>
      pose proof (@deliver_out name include_promos keep_temp merge tmp
                    tempdir p w0 next) as H;
      simpl in H; fold g in H
  end.

Lemma third_block_follows w :
  follows keep_temp (run_steps [g] (output_dir w)) w
    (third_block fuel name archive include_promos keep_temp merge w).
Proof.
  unfold follows, third_block. simpl. rewrite Hunpacked, Hfound. simpl.
  use_deliver H. unfold run_steps. simpl.
  destruct (g (output_dir w)) as [o [e|]]; simpl in *.
  - destruct H as (w1 & -> & Ho). exists w1. repeat split; auto. discriminate.
  - destruct H as (w1 & -> & Ho & Hs). exists w1. repeat split; auto.
    intros ->. auto.
Qed.

Lemma per_archive_sequence_follows w :
  follows keep_temp (run_steps [g] (output_dir w)) w
    (per_archive_sequence fuel name archive include_promos keep_temp merge w).
Proof.
  unfold follows, per_archive_sequence. simpl.
  rewrite Hunpacked, Hfound. simpl.
  use_deliver H. unfold run_steps. simpl.
  destruct (g (output_dir w)) as [o [e|]]; simpl in *.
  - destruct H as (w1 & -> & Ho). exists w1. repeat split; auto. discriminate.
  - destruct H as (w1 & -> & Ho & Hs). exists w1. repeat split; auto.
    intros ->. auto.
Qed.

Lemma second_block_follows w :
  follows keep_temp (run_steps [g; g] (output_dir w)) w
    (second_block fuel name archive include_promos keep_temp merge w).
Proof.
  unfold follows, second_block. simpl. rewrite Hunpacked, Hfound. simpl.
  use_deliver H. rewrite run_steps_cons.
  destruct (g (output_dir w)) as [o [e|]]; simpl in *.
  - destruct H as (w1 & -> & Ho). exists w1. repeat split; auto. discriminate.
  - destruct H as (w1 & -> & Ho & Hs).
    destruct (third_block_follows w1) as (w' & E & Ho' & Hs').
    rewrite Ho in E, Ho', Hs'. exists w'. repeat split; auto.
    intros Hk He. rewrite (Hs' Hk He), Hs, Hk. reflexivity.
Qed.

Lemma process_archive_follows w :
  follows keep_temp (run_steps [g; g; g] (output_dir w)) w
    (process_archive fuel name archive include_promos keep_temp merge w).
Proof.
  unfold follows, process_archive. simpl.
  pose proof (unpacked_any fuel name archive
                (fun t1 => [ContentsAfterFirst (map fst t1)])) as Hb.
  destruct (unpacked fuel name archive
              (fun t1 => [ContentsAfterFirst (map fst t1)]))
    as [[[t l] e]|]; [|congruence].
  destruct Hb as (-> & l' & Hb). rewrite Hunpacked in Hb.
  injection Hb as <- _. rewrite Hfound.
  use_deliver H. rewrite run_steps_cons.
  destruct (g (output_dir w)) as [o [e|]]; simpl in *.
  - destruct H as (w1 & -> & Ho). exists w1. repeat split; auto. discriminate.
  - destruct H as (w1 & -> & Ho & Hs).
    destruct (second_block_follows w1) as (w' & E & Ho' & Hs').
    rewrite Ho in E, Ho', Hs'. exists w'. repeat split; auto.
    intros Hk He. rewrite (Hs' Hk He), Hs, Hk. reflexivity.
Qed.

End Blocks.

Lemma writable_dir_at p :
  forall root, writable root = true -> writable (dir_at p root) = true.
Proof.
  induction p as [|n q IH]; intros root Hw; [assumption|].
  unfold dir_at. simpl.
  destruct (lookup n root) as [[c|sub]|] eqn:E; try reflexivity.
  - now destruct q.
  - apply (IH sub). apply (writable_lookup root n Hw E).
Qed.

Lemma process_archive_merge_steps fuel name archive include_promos keep_temp :
  match merge_steps fuel name archive include_promos with
  | None =>
      forall w,
        process_archive fuel name archive include_promos keep_temp true w
        = None
  | Some gs =>
      (unpacks_writable fuel name archive = true -> Forall coherent gs) /\
      forall w, exists w',
        process_archive fuel name archive include_promos keep_temp true w
        = Some (w', snd (run_steps gs (output_dir w))) /\
        output_dir w' = fst (run_steps gs (output_dir w))
  end.
Proof.
  unfold merge_steps, unpacks_writable.
  pose proof (unpacked_any fuel name archive (fun _ => [])) as Ha.
  pose proof (unpacked_any fuel name archive
                (fun t1 => [ContentsAfterFirst (map fst t1)])) as Hb.
  destruct (unpacked fuel name archive (fun _ => [])) as [[[t l] e]|] eqn:Hu.
  - destruct Ha as (-> & _).
    destruct (find_daz_root t) as [p|] eqn:Hf.
    + split.
      * intros Hok.
        repeat (apply Forall_cons;
                [apply place_merge_coherent; now apply writable_dir_at|]).
        apply Forall_nil.
      * intros w.
        destruct (@process_archive_follows fuel name archive include_promos
                    keep_temp true t l p Hu Hf w) as (w' & E & Ho & _).
        eauto.
    + split; [constructor|]. intros w.
      unfold process_archive. simpl.
      destruct (unpacked fuel name archive
                  (fun t1 => [ContentsAfterFirst (map fst t1)]))
        as [[[t' l'] e']|]; [|discriminate].
      destruct Hb as (-> & l2 & Hb). injection Hb as <- _.
      rewrite Hf. eexists. split; [reflexivity|]. now destruct keep_temp.
  - intros w. unfold process_archive. simpl.
    destruct (unpacked fuel name archive
                (fun t1 => [ContentsAfterFirst (map fst t1)]))
      as [[[t' l'] e']|]; [|reflexivity].
    destruct Hb as (_ & l2 & Hb). discriminate.
Qed.

(** *** The batch in merge mode *)

Section MergeBatch.

Variables (fuel : nat) (include_promos keep_temp : bool).

Let batch := process_all fuel include_promos keep_temp true.

Let all_writable (archives : entries) : bool :=
  forallb (fun '(n, a) => unpacks_writable fuel n a) archives.

Lemma process_all_grows archives :
  all_writable archives = true ->
  forall w w' e,
    batch archives w = Some (w', e) ->
    shape_le kept (Dir (output_dir w)) (Dir (output_dir w')) /\
    (wf (output_dir w) = true -> wf (output_dir w') = true).
Proof.
  induction archives as [|[name archive] rest IH]; intros Hok w w' e; simpl.
  - intros [= <- _]. split; [apply shape_le_refl|auto].
  - simpl in Hok. apply andb_prop in Hok. destruct Hok as [Hok Hrest].
    pose proof (process_archive_merge_steps fuel name archive include_promos
                  keep_temp) as Hs.
    destruct (merge_steps fuel name archive include_promos) as [gs|].
    + destruct Hs as [Hg Hs]. specialize (Hg Hok).
      destruct (Hs w) as (w1 & -> & Ho).
      pose proof (run_steps_grows Hg (output_dir w)) as Hgr.
      pose proof (run_steps_wf Hg (output_dir w)) as Hwf.
      rewrite <- Ho in Hgr, Hwf.
      destruct (snd (run_steps gs (output_dir w))) as [e1|].
      * intros [= <- _]. auto.
      * intros H. destruct (IH Hrest _ _ _ H) as [H1 H2].
        split; [eapply shape_le_trans; eauto|auto].
    + now rewrite Hs.
Qed.

Lemma process_all_mixes archives :
  all_writable archives = true ->
  forall w w' e u S,
    batch archives w = Some (w', e) ->
    mixes (Some (Dir (output_dir w))) (Dir (output_dir u)) (Dir S) ->
    shape_le kept (Dir (output_dir w')) (Dir S) ->
    exists u',
      batch archives u = Some (u', e) /\
      mixes (Some (Dir (output_dir w'))) (Dir (output_dir u')) (Dir S).
Proof.
  induction archives as [|[name archive] rest IH]; intros Hok w w' e u S; simpl.
  - intros [= <- <-] HM _. eauto.
  - simpl in Hok. apply andb_prop in Hok. destruct Hok as [Hok Hrest].
    pose proof (process_archive_merge_steps fuel name archive include_promos
                  keep_temp) as Hs.
    destruct (merge_steps fuel name archive include_promos) as [gs|].
    + destruct Hs as [Hg Hs]. specialize (Hg Hok).
      destruct (Hs w) as (w1 & -> & Ho). destruct (Hs u) as (u1 & -> & Hou).
      intros H HM HS.
      pose proof (@run_steps_mixes gs Hg _ _ S HM) as Hm.
      rewrite <- Ho, <- Hou in Hm.
      destruct (snd (run_steps gs (output_dir w))) as [e1|].
      * injection H as <- <-. destruct (Hm HS) as [Hm1 <-]. eauto.
      * destruct (process_all_grows _ Hrest _ H) as [Hgr _].
        destruct (Hm (shape_le_trans Hgr HS)) as [Hm1 <-].
        eapply IH; eauto.
    + now rewrite Hs.
Qed.

(** A second run of the batch leaves the output directory as the first
    run left it. *)
Lemma process_all_twice archives w w1 e :
  all_writable archives = true ->
  wf (output_dir w) = true ->
  batch archives w = Some (w1, e) ->
  forall u, output_dir u = output_dir w1 ->
       exists w2, batch archives u = Some (w2, e) /\
             output_dir w2 = output_dir w1.
Proof.
  intros Hok Hw H u Hu.
  destruct (process_all_grows _ Hok _ H) as [_ Hwf].
  destruct (@process_all_mixes archives Hok w w1 e u (output_dir w1) H)
    as (w2 & H2 & Hm).
  - rewrite Hu. apply mixes_refl.
  - apply shape_le_refl.
  - exists w2. split; [assumption|].
    apply mixes_final in Hm; [now injection Hm|]. now apply Hwf.
Qed.

End MergeBatch.

(** *** What a copy that returned has written *)

Lemma copy_entry_other x n m dst :
  m <> n -> lookup m (fst (copy_entry x n dst)) = lookup m dst.
Proof.
  intros Hne. destruct x as [c|ms]; simpl.
  - unfold copy2. destruct (lookup n dst) as [[c0|sub]|]; simpl.
    + destruct (read_only c0); simpl; [reflexivity|now apply lookup_set_other].
    + destruct (lookup n sub) as [[c1|s1]|]; simpl;
        try reflexivity; try (now apply lookup_set_other).
      destruct (read_only c1); simpl; [reflexivity|now apply lookup_set_other].
    + now apply lookup_set_other.
  - destruct (lookup n dst) as [[c0|sub]|]; simpl; try reflexivity;
      split_loop d e; simpl; now apply lookup_set_other.
Qed.

Lemma copy_daz_root_other source_root include_promos m :
  forall out,
    ~ In m (map fst source_root) ->
    lookup m (fst (copy_daz_root source_root out include_promos))
    = lookup m out.
Proof.
  induction source_root as [|[n x] r IH]; intros out Hm; [reflexivity|].
  rewrite copy_daz_root_cons. simpl in Hm.
  assert (Hne : m <> n) by (intros ->; apply Hm; now left).
  assert (Hr : ~ In m (map fst r)) by (intros H; apply Hm; now right).
  destruct (negb include_promos && is_promo_name n); [now apply IH|].
  pose proof (@copy_entry_other x n m out Hne) as H1.
  destruct (copy_entry x n out) as [o1 [e|]]; simpl in *; [assumption|].
  rewrite IH by assumption. assumption.
Qed.

Lemma copy2_placed c n dst o :
  copy2 c n dst = (o, None) ->
  exists y, lookup n o = Some y /\ placed n (File c) y.
Proof.
  unfold copy2. destruct (lookup n dst) as [[c0|sub]|] eqn:E.
  - destruct (read_only c0); [discriminate|]. intros [= <-].
    rewrite lookup_set_same. eexists. split; [reflexivity|constructor].
  - assert (Hin : exists y,
               lookup n (set n (Dir (set n (File c) sub)) dst) = Some y /\
               placed n (File c) y).
    { rewrite lookup_set_same. eexists. split; [reflexivity|].
      constructor. apply lookup_set_same. }
    destruct (lookup n sub) as [[c1|s1]|]; [|discriminate|].
    + destruct (read_only c1); [discriminate|]. now intros [= <-].
    + now intros [= <-].
  - intros [= <-]. rewrite lookup_set_same.
    eexists. split; [reflexivity|constructor].
Qed.

Lemma copy_entry_placed x :
  forall n dst o,
    wf_node x = true -> copy_entry x n dst = (o, None) ->
    exists y, lookup n o = Some y /\ placed n x y.
Proof.
  induction x using node_tree_ind with
    (Q := fun ms => forall dst o,
              wf ms = true ->
              each_collect (fun '(m, y) => copy_entry y m) ms dst = (o, None) ->
              forall m y, lookup m ms = Some y ->
                     exists z, lookup m o = Some z /\ placed m y z).
  - intros n dst o _. apply copy2_placed.
  - intros n dst o Hw. simpl.
    destruct (lookup n dst) as [[c0|sub]|] eqn:E; [discriminate| |].
    + specialize (IHx sub). name_loop es sub d e Er.
      intros [= <- ->]. rewrite lookup_set_same.
      eexists. split; [reflexivity|].
      constructor; intros m y; intros; destruct (IHx d Hw eq_refl m y)
        as (z' & Hz & Hpl); congruence.
    + specialize (IHx []). name_loop es (@nil (string * node)) d e Er.
      intros [= <- ->]. rewrite lookup_set_same.
      eexists. split; [reflexivity|].
      constructor; intros m y; intros; destruct (IHx d Hw eq_refl m y)
        as (z' & Hz & Hpl); congruence.
  - intros dst o _ _ m y. discriminate.
  - intros dst o Hw. rewrite wf_cons in Hw.
    apply andb_prop in Hw. destruct Hw as [Hw Hr].
    apply andb_prop in Hw. destruct Hw as [Hn Hx].
    apply negb_true_iff, mem_false_In in Hn. simpl.
    specialize (IHx n dst).
    destruct (copy_entry x n dst) as [d1 e1].
    specialize (IHx0 d1).
    assert (Hkeep : lookup n
                      (fst (each_collect (fun '(m, y) => copy_entry y m) r d1))
                    = lookup n d1).
    { clear -Hn. revert d1. induction r as [|[k z] r IH]; intros d1; simpl.
      - reflexivity.
      - assert (Hk : n <> k) by (intros ->; apply Hn; now left).
        pose proof (@copy_entry_other z k n d1 Hk) as H1.
        destruct (copy_entry z k d1) as [d2 e2]. simpl in H1.
        rewrite <- H1.
        assert (Hr : ~ In n (map fst r)) by (intros H; apply Hn; now right).
        specialize (IH Hr d2). now split_loop d3 e3. }
    name_loop r d1 d2 e2 Er. simpl in Hkeep.
    intros E. assert (e1 = None /\ e2 = None /\ d2 = o) as (-> & -> & ->).
    { destruct e1; injection E as <- E; [discriminate|auto]. }
    intros m y. destruct (String.eqb_spec m n) as [->|Hne].
    + intros [= <-]. rewrite Hkeep. now apply IHx.
    + now apply IHx0.
Qed.

Lemma copy_daz_root_placed source_root include_promos :
  forall out o,
    wf source_root = true ->
    copy_daz_root source_root out include_promos = (o, None) ->
    forall n x,
      lookup n source_root = Some x ->
      negb include_promos && is_promo_name n = false ->
      exists y, lookup n o = Some y /\ placed n x y.
Proof.
  induction source_root as [|[m z] r IH]; intros out o Hw; [discriminate|].
  rewrite wf_cons in Hw.
  apply andb_prop in Hw. destruct Hw as [Hw Hr].
  apply andb_prop in Hw. destruct Hw as [Hm Hz].
  apply negb_true_iff, mem_false_In in Hm.
  rewrite copy_daz_root_cons. intros Hc n x. simpl lookup.
  destruct (String.eqb_spec n m) as [->|Hne].
  - intros [= ->] Hp. rewrite Hp in Hc.
    destruct (copy_entry x m out) as [o1 [e|]] eqn:E1; [discriminate|].
    destruct (copy_entry_placed x m out Hz E1) as (y & Hy & Hpl).
    exists y. split; [|assumption].
    pose proof (@copy_daz_root_other r include_promos m o1 Hm) as H.
    rewrite Hc in H. simpl in H. congruence.
  - intros Hl Hp.
    destruct (negb include_promos && is_promo_name m).
    + eapply IH; eauto.
    + destruct (copy_entry z m out) as [o1 [e|]]; [discriminate|].
      eapply IH; eauto.
Qed.

(** C10, as the program behaves: in merge mode, when no file that the
    archives unpack to is read-only, a second run of the program on the
    same input ends as the first did and leaves the output directory,
    and so [Content], as the first run left it.  No directory lists a
    name twice after the run, and what was in the output directory
    before the run is there after it.  For a copy of a content root that
    returns: every entry of the root that is not left out is in the
    destination, a file with the bytes of the root (inside the directory
    of its name, where there is one) and a directory with all its
    entries; and whether it returns or raises, every entry of the
    destination stays.

    The theorem is about a [Content] that holds no directory before the
    first run.  The embedding keeps no mode of a directory, and a
    read-only directory that is there before the run is beyond it:
    [copytree] cannot add a file to it, sets its mode to that of the
    directory it copies and raises, and the second run then adds the
    file.  The directories the run itself makes have all their entries
    before [copytree] sets their mode. *)
Theorem merge_twice_same_content fuel include_promos keep_temp input_dir
  w w1 e :
  wf (output_dir w) = true ->
  files_only (dir_at ["Content"] (output_dir w)) = true ->
  forallb (fun '(n, a) => unpacks_writable fuel n a) input_dir = true ->
  main fuel include_promos keep_temp true input_dir w = Some (w1, e) ->
  (exists w2,
      main fuel include_promos keep_temp true input_dir w1 = Some (w2, e) /\
      output_dir w2 = output_dir w1 /\
      lookup "Content" (output_dir w2) = lookup "Content" (output_dir w1)) /\
  wf (output_dir w1) = true /\
  (forall p a, node_at p (Dir (output_dir w)) = Some a ->
          exists b, node_at p (Dir (output_dir w1)) = Some b /\
               is_dir b = is_dir a) /\
  (forall source_root out o n x,
      wf source_root = true ->
      copy_daz_root source_root out include_promos = (o, None) ->
      lookup n source_root = Some x ->
      negb include_promos && is_promo_name n = false ->
      exists y, lookup n o = Some y /\ placed n x y) /\
  (forall source_root out p a,
      node_at p (Dir out) = Some a ->
      exists b,
        node_at p (Dir (fst (copy_daz_root source_root out include_promos)))
        = Some b /\ is_dir b = is_dir a).
Proof.
  intros Hw _ Hok. unfold main.
  assert (Hokf : forallb (fun '(n, a) => unpacks_writable fuel n a)
                   (filter (fun '(n, f) => is_file f && is_archive_name n)
                      input_dir) = true).
  { apply forallb_forall. intros x Hx. apply filter_In in Hx.
    destruct Hx as [Hx _]. revert x Hx. now apply forallb_forall. }
  assert (Hcopies :
            (forall source_root out o n x,
                wf source_root = true ->
                copy_daz_root source_root out include_promos = (o, None) ->
                lookup n source_root = Some x ->
                negb include_promos && is_promo_name n = false ->
                exists y, lookup n o = Some y /\ placed n x y) /\
            (forall source_root out p a,
                node_at p (Dir out) = Some a ->
                exists b,
                  node_at p
                    (Dir (fst (copy_daz_root source_root out include_promos)))
                  = Some b /\ is_dir b = is_dir a)).
  { split.
    - intros source_root out o n x Hs Hc Hl Hp.
      eapply copy_daz_root_placed; eauto.
    - intros source_root out p a H.
      destruct (shape_le_node_at p
                  (copy_daz_root_keeps_shape source_root include_promos out) H)
        as (b & Hb & Hle).
      exists b. split; [assumption|exact (shape_le_is_dir Hle)]. }
  assert (Hstay : forall (o o1 : entries),
             shape_le kept (Dir o) (Dir o1) ->
             forall p a, node_at p (Dir o) = Some a ->
                    exists b, node_at p (Dir o1) = Some b /\
                         is_dir b = is_dir a).
  { intros o o1 Hle p a H.
    destruct (shape_le_node_at p Hle H) as (b & Hb & Hab).
    exists b. split; [assumption|exact (shape_le_is_dir Hab)]. }
  destruct (filter (fun '(n, f) => is_file f && is_archive_name n) input_dir)
    as [|a r].
  - intros [= <- <-]. split; [eexists; split; [reflexivity|]; split; reflexivity|].
    split; [assumption|]. split; [|assumption].
    apply Hstay. apply shape_le_refl.
  - destruct (process_all fuel include_promos keep_temp true (a :: r) w)
      as [[w' [e'|]]|] eqn:H; [| |discriminate].
    + intros [= <- <-].
      destruct (@process_all_twice fuel include_promos keep_temp (a :: r)
                  w w' (Some e') Hokf Hw H w' eq_refl) as (w2 & -> & Ho).
      destruct (@process_all_grows fuel include_promos keep_temp (a :: r)
                  Hokf _ _ _ H) as [Hgr Hwf].
      split; [exists w2; rewrite Ho; auto|].
      split; [auto|]. split; [now apply Hstay|assumption].
    + intros [= <- <-].
      destruct (@process_all_twice fuel include_promos keep_temp (a :: r)
                  w w' None Hokf Hw H (print [AllDone] w') eq_refl)
        as (w2 & -> & Ho).
      destruct (@process_all_grows fuel include_promos keep_temp (a :: r)
                  Hokf _ _ _ H) as [Hgr Hwf].
      split; [eexists; split; [reflexivity|]; simpl; rewrite Ho; auto|].
      split; [auto|]. split; [now apply Hstay|assumption].
Qed.

Lemma merge_twice_same_content_witness :
  exists w2,
    main 1 false false true merge_example_input merge_example_first
    = Some (w2, None) /\
    output_dir w2 = output_dir merge_example_first /\
    lookup "Content" (output_dir w2)
    = lookup "Content" (output_dir merge_example_first).
Proof.
  assert (E : main 1 false false true merge_example_input (World [] [] 0 [])
              = Some (merge_example_first, None))
    by (vm_compute; reflexivity).
  destruct (@merge_twice_same_content 1 false false merge_example_input
              (World [] [] 0 []) merge_example_first None
              eq_refl eq_refl eq_refl E)
    as (H & _).
  exact H.
Defined.

(** C10 as stated fails: the second archive of [locked_example_input]
    holds a read-only [a.duf].  The first run copies it over the one of
    the first archive and ends with an exception when the second block
    of lines 145 to 180 copies it again, after [b.duf] of the second
    archive has been written.  The second run cannot write [a.duf] of
    the first archive, writes its [b.duf] and ends there: [Content] now
    holds [b.duf] of the first archive. *)
Lemma merge_twice_differs :
  main 1 false false true locked_example_input (World [] [] 0 [])
  = Some (locked_example_first, Some "Permission denied") /\
  main 1 false false true locked_example_input locked_example_first
  = Some (locked_example_second, Some "Permission denied") /\
  lookup "Content" (output_dir locked_example_first)
  = Some (Dir [("Runtime", Dir [("a.duf", File (Content true (Raw "a2")));
                                ("b.duf", File (Raw "b2"))])]) /\
  lookup "Content" (output_dir locked_example_second)
  = Some (Dir [("Runtime", Dir [("a.duf", File (Content true (Raw "a2")));
                                ("b.duf", File (Raw "b1"))])]) /\
  lookup "Content" (output_dir locked_example_second)
  <> lookup "Content" (output_dir locked_example_first).
Proof.
  split; [vm_compute; reflexivity|]. split; [vm_compute; reflexivity|].
  split; [reflexivity|]. split; [reflexivity|]. discriminate.
Qed.

(** ** The three blocks of [process_archive] against the one sequence

    A copy of files that can be written to that went through goes
    through again and changes nothing, so the second and the third block
    leave the output directory as the first one left it. *)

Lemma step_again (g : step) out o :
  coherent g -> wf out = true -> g out = (o, None) -> g o = (o, None).
Proof.
  intros Hg Hw E.
  assert (Hl : Forall coherent [g]) by (constructor; [assumption|constructor]).
  pose proof (@run_steps_twice [g] out Hl Hw) as H.
  rewrite !run_steps_cons, E in H. simpl in H.
  unfold run_steps in H. simpl in H.
  destruct (g o) as [o' [e'|]]; [discriminate|congruence].
Qed.

Lemma append_longer s t : t <> "" -> (s ++ t)%string <> s.
Proof.
  intros Ht E. induction s as [|c s IH]; simpl in E.
  - contradiction.
  - injection E as E. auto.
Qed.

Lemma copy_into_fixed target include_promos daz_root out :
  copy_into target include_promos daz_root out = (out, None) ->
  exists d,
    lookup target out = Some (Dir d) /\
    copy_daz_root daz_root d include_promos = (d, None).
Proof.
  unfold copy_into.
  destruct (lookup target out) as [[c|sub]|] eqn:E; [discriminate| |].
  - simpl. intros [= Hs He]. exists sub. split; [reflexivity|].
    assert (Hl : lookup target
                   (set target
                      (Dir (fst (copy_daz_root daz_root sub include_promos)))
                      out) = Some (Dir sub)) by now rewrite Hs.
    rewrite lookup_set_same in Hl. injection Hl as Hl.
    destruct (copy_daz_root daz_root sub include_promos); simpl in *.
    now subst.
  - simpl. intros [= Hs He].
    assert (Hl : lookup target
                   (set target
                      (Dir (fst (copy_daz_root daz_root [] include_promos)))
                      out) = None) by now rewrite Hs.
    rewrite lookup_set_same in Hl. discriminate.
Qed.

Lemma place_out_again archive_name include_promos merge daz_root out o :
  writable daz_root = true ->
  wf out = true ->
  place_out archive_name include_promos merge daz_root out = (o, None) ->
  place_out archive_name include_promos merge daz_root o = (o, None).
Proof.
  intros Hok Hw. rewrite !place_out_copy_into. simpl.
  set (target := if merge then "Content"
                 else (stem archive_name ++ "_normalized")%string).
  destruct (copy_into target include_promos daz_root out) as [o2 [e|]] eqn:Ec;
    [discriminate|].
  pose proof (@step_again _ out o2
                (copy_into_coherent target include_promos daz_root Hok)
                Hw Ec) as Ec2.
  destruct merge.
  - intros [= <-]. now rewrite Ec2.
  - destruct (@copy_into_fixed _ _ _ _ Ec2) as (d & Hd & Hc).
    assert (Hne : (target ++ ".zip")%string <> target)
      by (apply append_longer; discriminate).
    unfold make_archive.
    assert (Hcopy : forall v,
               copy_into target include_promos daz_root
                 (set (target ++ ".zip")%string v o2)
               = (set (target ++ ".zip")%string v o2, None)).
    { intros v. unfold copy_into.
      rewrite lookup_set_other, Hd by congruence. simpl. rewrite Hc. simpl.
      rewrite set_lookup_id; [reflexivity|].
      now rewrite lookup_set_other by congruence. }
    assert (Hdir : forall v,
               dir_at [target] (set (target ++ ".zip")%string v o2)
               = dir_at [target] o2).
    { intros v. unfold dir_at. simpl.
      now rewrite lookup_set_other by congruence. }
    destruct (lookup (target ++ ".zip")%string o2) as [[c|sub]|];
      try discriminate; try destruct (read_only c); try discriminate;
      intros [= <-]; rewrite Hcopy, lookup_set_same, Hdir; simpl;
      now rewrite set_set.
Qed.

(** Whatever the mode, when no file the archive unpacks to is
    read-only, [process_archive] ends as the one sequence of the
    specification does and leaves the same output directory; when
    scratch directories are not kept it leaves the same ones, too. *)
Lemma process_archive_output_as_once fuel name archive include_promos
  keep_temp merge w w1 e :
  unpacks_writable fuel name archive = true ->
  wf (output_dir w) = true ->
  process_archive fuel name archive include_promos keep_temp merge w
  = Some (w1, e) ->
  exists w1',
    per_archive_sequence fuel name archive include_promos keep_temp merge w
    = Some (w1', e) /\
    output_dir w1' = output_dir w1 /\
    (keep_temp = false -> e = None -> scratch w1' = scratch w1).
Proof.
  unfold unpacks_writable. intros Hok Hw.
  pose proof (unpacked_any fuel name archive (fun _ => [])) as Ha.
  pose proof (unpacked_any fuel name archive
                (fun t1 => [ContentsAfterFirst (map fst t1)])) as Hb.
  destruct (unpacked fuel name archive (fun _ => [])) as [[[t l] e0]|] eqn:Hu.
  - destruct Ha as (-> & _).
    destruct (find_daz_root t) as [p|] eqn:Hf.
    + apply (writable_dir_at p) in Hok.
      destruct (@process_archive_follows fuel name archive include_promos
                  keep_temp merge t l p Hu Hf w) as (w3 & E3 & Ho3 & Hs3).
      destruct (@per_archive_sequence_follows fuel name archive include_promos
                  keep_temp merge t l p Hu Hf w) as (w' & E1 & Ho1 & Hs1).
      rewrite E3, E1. clear E3 E1.
      set (g := place_out name include_promos merge (dir_at p t)) in *.
      assert (Hr : run_steps [g; g; g] (output_dir w)
                   = run_steps [g] (output_dir w)).
      { rewrite !run_steps_cons.
        destruct (g (output_dir w)) as [o [e1|]] eqn:Eg; [reflexivity|].
        pose proof (@place_out_again _ _ _ _ _ _ Hok Hw Eg) as Eg2.
        fold g in Eg2.
        rewrite run_steps_cons, Eg2. rewrite run_steps_cons, Eg2.
        reflexivity. }
      rewrite Hr in *. intros [= <- <-]. exists w'.
      split; [reflexivity|]. split; [congruence|].
      intros Hk He. rewrite Hs1, Hs3; auto.
    + unfold process_archive, per_archive_sequence. simpl.
      destruct (unpacked fuel name archive
                  (fun t1 => [ContentsAfterFirst (map fst t1)]))
        as [[[t' l'] e']|]; [|discriminate].
      destruct Hb as (-> & l2 & Hb). injection Hb as <- _.
      rewrite Hu, Hf. intros [= <- <-]. eexists.
      split; [reflexivity|]. now destruct keep_temp.
  - unfold process_archive. simpl.
    destruct (unpacked fuel name archive
                (fun t1 => [ContentsAfterFirst (map fst t1)]))
      as [[[t' l'] e']|]; [|discriminate].
    destruct Hb as (_ & l2 & Hb). discriminate.
Qed.

(** * Further properties *)

(** ** Well-formed trees stay well formed *)

Lemma wf_In_lookup es n x : wf es = true -> In (n, x) es -> lookup n es = Some x.
Proof.
  induction es as [|[m y] r IH]; intros Hw; [intros []|].
  rewrite wf_cons in Hw. apply andb_prop in Hw. destruct Hw as [Hw Hr].
  apply andb_prop in Hw. destruct Hw as [Hm _].
  apply negb_true_iff, mem_false_In in Hm.
  intros [H|H]; simpl.
  - injection H as -> ->. now rewrite String.eqb_refl.
  - destruct (String.eqb_spec n m) as [->|]; [|auto].
    exfalso. apply Hm. apply (in_map fst) in H. exact H.
Qed.

Lemma names_remove_In m n es :
  In m (map fst (remove n es)) -> In m (map fst es).
Proof.
  induction es as [|[k y] r IH]; simpl; [auto|].
  destruct (n =? k)%string; simpl; [auto|]. intros [H|H]; auto.
Qed.

Lemma wf_remove n es : wf es = true -> wf (remove n es) = true.
Proof.
  induction es as [|[m y] r IH]; intros Hw; simpl; [reflexivity|].
  rewrite wf_cons in Hw. apply andb_prop in Hw. destruct Hw as [Hw Hr].
  apply andb_prop in Hw. destruct Hw as [Hm Hy].
  destruct (n =? m)%string; [assumption|].
  rewrite wf_cons, Hy, IH by assumption.
  apply negb_true_iff, mem_false_In in Hm.
  assert (Hm' : ~ In m (map fst (remove n r)))
    by (intros H; now apply names_remove_In in H).
  apply mem_false_In in Hm'. now rewrite Hm'.
Qed.

Lemma wf_dir_at p : forall root, wf root = true -> wf (dir_at p root) = true.
Proof.
  induction p as [|n q IH]; intros root Hw; [assumption|].
  unfold dir_at. simpl.
  destruct (lookup n root) as [[c|sub]|] eqn:E; try reflexivity.
  - now destruct q.
  - apply (IH sub). apply (wf_lookup root n Hw E).
Qed.

Lemma wf_update_at q g :
  forall root,
    wf root = true ->
    (wf (dir_at q root) = true -> wf (g (dir_at q root)) = true) ->
    wf (update_at q g root) = true.
Proof.
  induction q as [|n q IH]; intros root Hw Hg; simpl; [auto|].
  destruct (lookup n root) as [[c|sub]|] eqn:E; try assumption.
  rewrite (@dir_at_cons n q root sub E) in Hg.
  apply wf_set; [assumption|].
  apply (IH sub); [apply (wf_lookup root n Hw E)|assumption].
Qed.

Lemma write_member_wf keep x :
  forall n dest,
    wf dest = true -> wf (fst (write_member keep x n dest)) = true.
Proof.
  induction x using node_tree_ind with
    (Q := fun ms => forall dest,
              wf dest = true ->
              wf (fst (each_until (fun '(m, y) => write_member keep y m)
                         ms dest))
              = true).
  - intros n dest Hw. simpl.
    destruct (lookup n dest) as [[c0|sub]|]; simpl; try assumption;
      try destruct (read_only c0); simpl; try assumption;
      now apply wf_set.
  - intros n dest Hw. simpl.
    destruct (lookup n dest) as [[c0|sub]|] eqn:E; simpl.
    + assumption.
    + specialize (IHx sub (wf_lookup dest n Hw E)).
      split_loop sub' e. simpl in *. now apply wf_set.
    + specialize (IHx [] eq_refl).
      split_loop sub' e. simpl in *. now apply wf_set.
  - intros dest Hw. assumption.
  - intros dest Hw. simpl.
    specialize (IHx n dest Hw).
    destruct (write_member keep x n dest) as [d1 [e1|]]; simpl in *; auto.
Qed.

Lemma extractall_wf keep ms :
  forall dest, wf dest = true -> wf (fst (extractall keep ms dest)) = true.
Proof.
  unfold extractall. induction ms as [|[m y] r IH]; intros dest Hw; simpl.
  - assumption.
  - pose proof (write_member_wf keep y m dest Hw) as H.
    destruct (write_member keep y m dest) as [d' [e|]]; simpl in *; auto.
Qed.

Lemma extract_archive_wf archive_path src dest :
  wf dest = true ->
  wf (fst (fst (extract_archive archive_path src dest))) = true.
Proof.
  intros Hw. unfold extract_archive.
  destruct (is_archive_name (name_of archive_path)) eqn:Ha.
  - destruct (extract_archive_try_format archive_path src dest Ha)
      as (f & _ & ->).
    assert (H : wf (fst (decode f src dest)) = true).
    { unfold decode.
      destruct src as [[[ro [data|g ms fault]]|es]|]; simpl; try assumption.
      destruct (format_eqb f g); [|assumption].
      pose proof (extractall_wf (restores_mode f) ms dest Hw) as H.
      now destruct (extractall (restores_mode f) ms dest) as [d [e|]]. }
    now destruct (decode f src dest) as [d [e|]].
  - now rewrite extract_archive_try_unsupported.
Qed.

Lemma unlink_wf p root : wf root = true -> wf (fst (unlink p root)) = true.
Proof.
  intros Hw. unfold unlink.
  destruct (node_at p (Dir root)) as [[c|es]|]; simpl; try assumption.
  apply wf_update_at; [assumption|]. apply wf_remove.
Qed.

Lemma unpack_one_wf a root : wf root = true -> wf (fst (unpack_one a root)) = true.
Proof.
  intros Hw. unfold unpack_one.
  pose proof (@extract_archive_wf a (node_at a (Dir root))
                (dir_at (parent a) root) (wf_dir_at (parent a) root Hw)) as H.
  destruct (extract_archive a (node_at a (Dir root)) (dir_at (parent a) root))
    as [[d l] e]. simpl in H.
  assert (H1 : wf (update_at (parent a) (fun _ => d) root) = true)
    by (apply wf_update_at; auto).
  destruct e as [msg|]; simpl; [assumption|].
  pose proof (unlink_wf a _ H1) as H2.
  now destruct (unlink a (update_at (parent a) (fun _ => d) root))
    as [r2 [msg|]].
Qed.

Lemma unpack_pass_wf archives :
  forall root, wf root = true -> wf (fst (unpack_pass archives root)) = true.
Proof.
  induction archives as [|a r IH]; intros root Hw; simpl; [assumption|].
  pose proof (unpack_one_wf a root Hw) as H1.
  destruct (unpack_one a root) as [root1 l1]. simpl in H1.
  specialize (IH root1 H1).
  now destruct (unpack_pass r root1) as [root2 l2].
Qed.

Lemma unpacker_wf fuel :
  forall root iteration root' l,
    wf root = true ->
    extract_all_archives_recursively fuel root iteration = Some (root', l) ->
    wf root' = true.
Proof.
  induction fuel as [|fuel IH]; intros root iteration root' l Hw; simpl.
  - destruct (archives_under root); [|discriminate]. now intros [= <- _].
  - destruct (archives_under root) as [|a r] eqn:E; [now intros [= <- _]|].
    pose proof (unpack_pass_wf (a :: r) root Hw) as H1.
    destruct (unpack_pass (a :: r) root) as [root1 l1]. simpl in H1.
    destruct (extract_all_archives_recursively fuel root1 (S iteration))
      as [[root2 l2]|] eqn:F; [|discriminate].
    intros [= <- _]. eauto.
Qed.

Lemma unpacked_wf fuel name archive between t l e :
  unpacked fuel name archive between = Some ((t, l), e) -> wf t = true.
Proof.
  unfold unpacked.
  pose proof (@extract_archive_wf [name] (Some archive) [] eq_refl) as H.
  destruct (extract_archive [name] (Some archive) []) as [[t1 l1] [e1|]];
    simpl in H.
  - now intros [= <- _ _].
  - destruct (extract_all_archives_recursively fuel t1 0) as [[t2 l2]|] eqn:F;
      [|discriminate].
    intros [= <- _ _]. eapply unpacker_wf; eauto.
Qed.

(** ** The walk lists nothing but paths of the tree *)

Lemma iterate_directories_sound x :
  forall q d, wf_node x = true -> In (q, d) (iterate_directories x) ->
         node_at q x = Some (Dir d).
Proof.
  induction x as [c|es IH] using node_lookup_ind; intros q d Hw; simpl.
  - intros [].
  - intros [H|H]; [now injection H as <- <-|].
    apply in_flat_map in H. destruct H as ([n y] & Hin & H).
    apply in_map_iff in H. destruct H as ([q' d'] & E & H).
    injection E as <- <-. simpl.
    pose proof (@wf_In_lookup es n y Hw Hin) as Hl. rewrite Hl.
    apply (IH n y Hl); [|assumption]. apply (wf_lookup es n Hw Hl).
Qed.

Lemma rglob_sound root p x :
  wf root = true -> In (p, x) (rglob root) ->
  p <> [] /\ node_at p (Dir root) = Some x.
Proof.
  intros Hw H. unfold rglob in H. apply in_flat_map in H.
  destruct H as ([q d] & Hq & H). unfold children in H.
  apply in_map_iff in H. destruct H as ([n y] & E & Hin).
  injection E as <- <-.
  apply (iterate_directories_sound (Dir root)) in Hq; [|assumption].
  split; [now destruct q|].
  assert (Hd : wf d = true).
  { pose proof (wf_dir_at q root Hw) as Hx. unfold dir_at in Hx.
    now rewrite Hq in Hx. }
  pose proof (@wf_In_lookup d n y Hd Hin) as Hl.
  clear -Hq Hl. revert Hq. generalize (Dir root).
  induction q as [|m q IH]; intros r; simpl.
  - intros [= ->]. now rewrite Hl.
  - destruct r as [c|es]; [discriminate|].
    destruct (lookup m es) as [z|]; [|discriminate]. apply IH.
Qed.

(** ** More on the content-root locator *)

Lemma find_daz_root_leads root p :
  wf root = true ->
  find_daz_root root = Some p ->
  exists d, node_at p (Dir root) = Some (Dir d) /\ dir_at p root = d /\
       qualifies d.
Proof.
  intros Hw. unfold find_daz_root.
  destruct (has_daz_folder root) eqn:Hr.
  - intros [= <-]. exists root. repeat split.
    now apply has_daz_folder_qualifies.
  - destruct (first_daz_dir_spec (rglob root))
      as [(b & p' & s & a & E & Hq & _ & F)|[_ F]]; rewrite F;
      [|discriminate].
    intros [= <-].
    assert (Hin : In (p', Dir s) (rglob root))
      by (rewrite E; apply in_or_app; right; now left).
    destruct (@rglob_sound root p' (Dir s) Hw Hin) as [_ Hn].
    exists s. unfold dir_at. rewrite Hn. auto.
Qed.

(** X1: the path [find_daz_root] returns leads to a directory of the
    tree, and a subdirectory of that directory is a content folder. *)
Theorem find_daz_root_sound root p :
  wf root = true ->
  find_daz_root root = Some p ->
  exists d, node_at p (Dir root) = Some (Dir d) /\ dir_at p root = d /\
       qualifies d.
Proof. apply find_daz_root_leads. Qed.

Lemma find_daz_root_sound_witness :
  exists d,
    node_at ["a"; "b"; "c"] (Dir three_roots_tree) = Some (Dir d) /\
    dir_at ["a"; "b"; "c"] three_roots_tree = d /\ qualifies d.
Proof.
  apply (@find_daz_root_sound three_roots_tree ["a"; "b"; "c"]); reflexivity.
Defined.

Lemma find_daz_root_none_nowhere root q d :
  find_daz_root root = None ->
  node_at q (Dir root) = Some (Dir d) ->
  ~ qualifies d.
Proof.
  unfold find_daz_root.
  destruct (has_daz_folder root) eqn:Hr; [discriminate|].
  intros F Hq.
  destruct q as [|n q].
  - injection Hq as <-. now apply has_daz_folder_not.
  - destruct (first_daz_dir_spec (rglob root))
      as [(b & p' & s & a & _ & _ & _ & F')|[Hn _]]; [congruence|].
    apply (Hn (n :: q) d). apply rglob_complete; [discriminate|assumption].
Qed.

(** X2: when [find_daz_root] finds nothing, no directory of the tree, at
    any depth, has a content folder among its subdirectories. *)
Theorem find_daz_root_none_everywhere root q d :
  find_daz_root root = None ->
  node_at q (Dir root) = Some (Dir d) ->
  ~ qualifies d.
Proof. apply find_daz_root_none_nowhere. Qed.

Lemma find_daz_root_none_everywhere_witness :
  ~ qualifies [("Runtime", File (Raw "a file")); ("notes", Dir [])].
Proof.
  apply (@find_daz_root_none_everywhere
           [("pack", Dir [("Runtime", File (Raw "a file")); ("notes", Dir [])])]
           ["pack"]); reflexivity.
Defined.

(** ** More on the recursive unpacker *)

(** X3: the unpacker removes no directory: every directory of the tree
    it starts from is a directory of the tree it returns. *)
Theorem unpacker_keeps_directories fuel root iteration root' l p sub :
  extract_all_archives_recursively fuel root iteration = Some (root', l) ->
  node_at p (Dir root) = Some (Dir sub) ->
  exists sub', node_at p (Dir root') = Some (Dir sub').
Proof.
  revert root iteration l sub.
  induction fuel as [|fuel IH]; intros root iteration l sub; simpl.
  - destruct (archives_under root); [|discriminate].
    intros [= <- _] H. eauto.
  - destruct (archives_under root) as [|a r] eqn:E.
    + intros [= <- _] H. eauto.
    + pose proof (keeps_dirs_unpack_pass (a :: r) root) as Hk.
      destruct (unpack_pass (a :: r) root) as [root1 l1]. simpl in Hk.
      destruct (extract_all_archives_recursively fuel root1 (S iteration))
        as [[root2 l2]|] eqn:F; [|discriminate].
      intros [= <- _] H. destruct (Hk _ _ H) as [sub1 H1].
      eapply IH; eauto.
Qed.

Lemma unpacker_keeps_directories_witness :
  exists sub',
    node_at ["set"]
      (Dir [("set", Dir [("Runtime", Dir [("a.duf", File (Raw "1"))])])])
    = Some (Dir sub').
Proof.
  apply (@unpacker_keeps_directories 1
           [("set", Dir [("in.zip",
                          File (Packed Zip
                                  [("Runtime", Dir [("a.duf", File (Raw "1"))])]
                                  None))])]
           0 _ [PassFound 0 1; ExtractingNested ["set"; "in.zip"];
                NoMoreArchives 1]
           ["set"]
           [("in.zip",
             File (Packed Zip [("Runtime", Dir [("a.duf", File (Raw "1"))])]
                     None))]);
    reflexivity.
Defined.

(** Extraction keeps every entry of the destination, with its kind. *)
Lemma write_member_grows keep x :
  forall n dest,
    shape_le any_file (Dir dest) (Dir (fst (write_member keep x n dest))).
Proof.
  induction x using node_tree_ind with
    (Q := fun ms => forall dest,
              shape_le any_file (Dir dest)
                (Dir (fst (each_until (fun '(m, y) => write_member keep y m)
                             ms dest)))).
  - intros n dest. simpl.
    destruct (lookup n dest) as [[c0|sub]|] eqn:E; simpl.
    + destruct (read_only c0); simpl; [apply shape_le_refl|].
      apply shape_le_set. intros old Ho. rewrite E in Ho.
      injection Ho as <-. now constructor.
    + apply shape_le_refl.
    + apply shape_le_set. intros old Ho. congruence.
  - intros n dest. simpl.
    destruct (lookup n dest) as [[c0|sub]|] eqn:E; simpl.
    + apply shape_le_refl.
    + specialize (IHx sub). split_loop sub' e. simpl in *.
      apply shape_le_set. intros old Ho. rewrite E in Ho.
      now injection Ho as <-.
    + split_loop sub' e. simpl.
      apply shape_le_set. intros old Ho. congruence.
  - intros dest. apply shape_le_refl.
  - intros dest. simpl.
    specialize (IHx n dest).
    destruct (write_member keep x n dest) as [d' [e|]]; simpl in *;
      [assumption|].
    eapply shape_le_trans; eauto.
Qed.

Lemma extract_archive_grows archive_path src dest :
  shape_le any_file (Dir dest)
    (Dir (fst (fst (extract_archive archive_path src dest)))).
Proof.
  unfold extract_archive.
  destruct (is_archive_name (name_of archive_path)) eqn:Ha.
  - destruct (extract_archive_try_format archive_path src dest Ha)
      as (f & _ & ->).
    assert (H : shape_le any_file (Dir dest) (Dir (fst (decode f src dest)))).
    { unfold decode.
      destruct src as [[[ro [data|g ms fault]]|es]|]; simpl;
        try apply shape_le_refl.
      destruct (format_eqb f g); [|apply shape_le_refl].
      assert (H : shape_le any_file (Dir dest)
                    (Dir (fst (extractall (restores_mode f) ms dest)))).
      { unfold extractall. revert dest.
        induction ms as [|[m y] r IH]; intros dest; simpl.
        - apply shape_le_refl.
        - pose proof (write_member_grows (restores_mode f) y m dest) as H.
          destruct (write_member (restores_mode f) y m dest) as [d' [e|]];
            simpl in *; [assumption|].
          eapply shape_le_trans; eauto. }
      now destruct (extractall (restores_mode f) ms dest) as [d [e|]]. }
    now destruct (decode f src dest) as [d [e|]].
  - rewrite extract_archive_try_unsupported by assumption.
    apply shape_le_refl.
Qed.

(** X5: [extract_archive] removes nothing from the destination: what
    was at a path before is there after, a file as a file and a
    directory as a directory. *)
Theorem extract_archive_keeps_entries archive_path src dest p a :
  node_at p (Dir dest) = Some a ->
  exists b,
    node_at p (Dir (fst (fst (extract_archive archive_path src dest))))
    = Some b /\ is_dir b = is_dir a.
Proof.
  intros H.
  destruct (shape_le_node_at p (extract_archive_grows archive_path src dest) H)
    as (b & Hb & Hle).
  exists b. split; [assumption|exact (shape_le_is_dir Hle)].
Qed.

Lemma extract_archive_keeps_entries_witness :
  exists b,
    node_at ["Runtime"; "old.duf"]
      (Dir (fst (fst (extract_archive ["set.zip"]
                        (Some (File (Packed Zip
                                 [("Runtime", Dir [("new.duf", File (Raw "n"))])]
                                 None)))
                        [("Runtime", Dir [("old.duf", File (Raw "o"))])]))))
    = Some b /\ is_dir b = is_dir (File (Raw "o")).
Proof.
  apply (@extract_archive_keeps_entries ["set.zip"] _ _ ["Runtime"; "old.duf"]).
  reflexivity.
Defined.

(** ** More on the selective copier *)

Lemma copy_entry_fresh x :
  forall n dst,
    wf_node x = true -> lookup n dst = None ->
    copy_entry x n dst = (dst ++ [(n, x)], None).
Proof.
  induction x using node_tree_ind with
    (Q := fun ms => forall dst,
              wf ms = true ->
              (forall m, In m (map fst ms) -> lookup m dst = None) ->
              each_collect (fun '(m, y) => copy_entry y m) ms dst
              = (dst ++ ms, None)).
  - intros n dst _ H. simpl. unfold copy2. rewrite H. now rewrite set_absent.
  - intros n dst Hw H. simpl. rewrite H.
    rewrite (IHx [] Hw) by reflexivity. simpl. now rewrite set_absent.
  - intros dst _ _. simpl. now rewrite app_nil_r.
  - intros dst Hw H. rewrite wf_cons in Hw.
    apply andb_prop in Hw. destruct Hw as [Hw Hr].
    apply andb_prop in Hw. destruct Hw as [Hn Hx].
    apply negb_true_iff, mem_false_In in Hn.
    simpl. rewrite IHx by (auto; apply H; now left).
    rewrite IHx0; [now rewrite <- app_assoc|assumption|].
    intros m Hm. rewrite lookup_app, (H m) by (now right). simpl.
    destruct (String.eqb_spec m n) as [->|]; [contradiction|reflexivity].
Qed.

Lemma copy_daz_root_fresh source_root include_promos :
  forall out,
    wf source_root = true ->
    (forall m, In m (map fst source_root) -> lookup m out = None) ->
    copy_daz_root source_root out include_promos =
    (out ++ filter (fun '(n, _) => include_promos || negb (is_promo_name n))
              source_root,
     None).
Proof.
  induction source_root as [|[n x] r IH]; intros out Hw H.
  - simpl. now rewrite app_nil_r.
  - rewrite wf_cons in Hw.
    apply andb_prop in Hw. destruct Hw as [Hw Hr].
    apply andb_prop in Hw. destruct Hw as [Hn Hx].
    apply negb_true_iff, mem_false_In in Hn.
    rewrite copy_daz_root_cons. simpl filter.
    replace (include_promos || negb (is_promo_name n))
      with (negb (negb include_promos && is_promo_name n))
      by (now destruct include_promos, (is_promo_name n)).
    destruct (negb include_promos && is_promo_name n); simpl.
    + apply IH; [assumption|]. intros m Hm. apply H. now right.
    + rewrite copy_entry_fresh by (auto; apply H; now left).
      rewrite IH; [now rewrite <- app_assoc|assumption|].
      intros m Hm. rewrite lookup_app, (H m) by (now right). simpl.
      destruct (String.eqb_spec m n) as [->|]; [contradiction|reflexivity].
Qed.

(** X6: the copy of a content root into an empty directory is the
    root itself when promos are included, and else the root without
    the entries of its top level that have a promotional extension;
    below the top level nothing is left out. *)
Theorem copy_daz_root_into_empty source_root include_promos :
  wf source_root = true ->
  copy_daz_root source_root [] include_promos =
  (filter (fun '(n, _) => include_promos || negb (is_promo_name n)) source_root,
   None).
Proof.
  intros Hw. now rewrite copy_daz_root_fresh.
Qed.

Lemma copy_daz_root_into_empty_witness :
  copy_daz_root
    [("Runtime", Dir [("tex.PNG", File (Raw "t")); ("a.duf", File (Raw "1"))]);
     ("ReadMe.TXT", File (Raw "r")); ("People", Dir [])] [] false
  = ([("Runtime", Dir [("tex.PNG", File (Raw "t")); ("a.duf", File (Raw "1"))]);
      ("People", Dir [])], None).
Proof.
  apply (@copy_daz_root_into_empty
           [("Runtime", Dir [("tex.PNG", File (Raw "t")); ("a.duf", File (Raw "1"))]);
            ("ReadMe.TXT", File (Raw "r")); ("People", Dir [])] false).
  reflexivity.
Defined.

(** X7: [copy_daz_root] removes nothing from the destination, whether
    it ends with an exception or not: what was at a path before is there
    after, a file as a file and a directory as a directory. *)
Theorem copy_daz_root_keeps_entries source_root out include_promos p a :
  node_at p (Dir out) = Some a ->
  exists b,
    node_at p (Dir (fst (copy_daz_root source_root out include_promos)))
    = Some b /\ is_dir b = is_dir a.
Proof.
  intros H.
  destruct (shape_le_node_at p
              (copy_daz_root_keeps_shape source_root include_promos out) H)
    as (b & Hb & Hle).
  exists b. split; [assumption|exact (shape_le_is_dir Hle)].
Qed.

Lemma copy_daz_root_keeps_entries_witness :
  exists b,
    node_at ["Runtime"; "old.duf"]
      (Dir (fst (copy_daz_root
                   [("Runtime", File (Raw "a file"));
                    ("People", Dir [("p.duf", File (Raw "p"))])]
                   [("Runtime", Dir [("old.duf", File (Raw "o"))])] true)))
    = Some b /\ is_dir b = is_dir (File (Raw "o")).
Proof.
  apply (@copy_daz_root_keeps_entries _ _ true ["Runtime"; "old.duf"]).
  reflexivity.
Defined.

Lemma copy_daz_root_coherent source_root include_promos :
  writable source_root = true ->
  coherent (fun out => copy_daz_root source_root out include_promos).
Proof.
  intros Hok. split.
  - intros T. now apply (copy_daz_root_grows _ kept_write).
  - intros T. apply copy_daz_root_wf.
  - intros T U S. now apply copy_daz_root_mixes.
Qed.

(** X8: copying a root without read-only files a second time into the
    same destination changes nothing and ends as the first copy did.
    The destination holds no directory before the first copy: the mode
    of a directory is not kept, and a read-only directory that is there
    before is beyond the embedding. *)
Theorem copy_daz_root_twice source_root out include_promos :
  writable source_root = true ->
  wf out = true ->
  files_only out = true ->
  copy_daz_root source_root
    (fst (copy_daz_root source_root out include_promos)) include_promos
  = copy_daz_root source_root out include_promos.
Proof.
  intros Hok Hw _.
  set (g := (fun o => copy_daz_root source_root o include_promos) : step).
  assert (Hl : Forall coherent [g]).
  { constructor; [now apply copy_daz_root_coherent|constructor]. }
  pose proof (@run_steps_twice [g] out Hl Hw) as H.
  assert (Hrun : forall o, run_steps [g] o = g o).
  { intros o. rewrite run_steps_cons. unfold run_steps. simpl.
    now destruct (g o) as [o' [e|]]. }
  rewrite !Hrun in H. exact H.
Qed.

Lemma copy_daz_root_twice_witness :
  copy_daz_root
    [("Runtime", Dir [("a.duf", File (Raw "new"))]); ("data", File (Raw "d"));
     ("People", Dir [])]
    (fst (copy_daz_root
            [("Runtime", Dir [("a.duf", File (Raw "new"))]);
             ("data", File (Raw "d")); ("People", Dir [])]
            [("data", File (Content true (Raw "old")));
             ("notes.txt", File (Raw "n"))]
            false)) false
  = copy_daz_root
      [("Runtime", Dir [("a.duf", File (Raw "new"))]); ("data", File (Raw "d"));
       ("People", Dir [])]
      [("data", File (Content true (Raw "old"))); ("notes.txt", File (Raw "n"))]
      false.
Proof.
  apply (@copy_daz_root_twice
           [("Runtime", Dir [("a.duf", File (Raw "new"))]);
            ("data", File (Raw "d")); ("People", Dir [])]
           [("data", File (Content true (Raw "old")));
            ("notes.txt", File (Raw "n"))]
           false); reflexivity.
Defined.

(** X9: after a copy that ended normally, a file of the top level of
    the root that was not left out is in the destination with the bytes
    of the root, whatever file was there before; only a directory of its
    name in the destination makes it land elsewhere. *)
Theorem copy_daz_root_overwrites source_root out include_promos o n c :
  wf source_root = true ->
  copy_daz_root source_root out include_promos = (o, None) ->
  lookup n source_root = Some (File c) ->
  negb include_promos && is_promo_name n = false ->
  is_dir_entry n out = false ->
  lookup n o = Some (File c).
Proof.
  unfold is_dir_entry. revert out.
  induction source_root as [|[m x] r IH]; intros out Hw; [discriminate|].
  rewrite wf_cons in Hw.
  apply andb_prop in Hw. destruct Hw as [Hw Hr].
  apply andb_prop in Hw. destruct Hw as [Hm _].
  apply negb_true_iff, mem_false_In in Hm.
  rewrite copy_daz_root_cons. simpl lookup.
  destruct (String.eqb_spec n m) as [->|Hne].
  - intros Hc [= ->] Hp Hd. rewrite Hp in Hc.
    simpl in Hc. unfold copy2 in Hc.
    assert (E : copy_daz_root r (set m (File c) out) include_promos = (o, None)).
    { destruct (lookup m out) as [[c0|sub]|]; try assumption;
        [|discriminate].
      destruct (read_only c0); [discriminate|assumption]. }
    pose proof (@copy_daz_root_other r include_promos m (set m (File c) out) Hm)
      as H. rewrite E in H. simpl in H. now rewrite H, lookup_set_same.
  - intros Hc Hl Hp Hd.
    destruct (negb include_promos && is_promo_name m).
    + eapply IH; eauto.
    + pose proof (@copy_entry_other x m n out Hne) as H1.
      destruct (copy_entry x m out) as [o1 [e|]]; [discriminate|].
      simpl in H1. eapply IH; eauto. now rewrite H1.
Qed.

Lemma copy_daz_root_overwrites_witness :
  lookup "scene.duf"
    (fst (copy_daz_root
            [("Runtime", Dir []); ("scene.duf", File (Raw "new"))]
            [("scene.duf", File (Raw "old")); ("Runtime", Dir [])] false))
  = Some (File (Raw "new")).
Proof.
  apply (@copy_daz_root_overwrites
           [("Runtime", Dir []); ("scene.duf", File (Raw "new"))]
           [("scene.duf", File (Raw "old")); ("Runtime", Dir [])] false);
    reflexivity.
Defined.

(** ** More on the orchestrator *)

(** How [process_archive] ends: with a content root, as the three runs
    of its copy on the output directory; without one, with the output
    directory as it was. *)
Lemma process_archive_cases fuel name archive include_promos keep_temp merge
  w w1 e :
  process_archive fuel name archive include_promos keep_temp merge w
  = Some (w1, e) ->
  exists t l,
    unpacked fuel name archive (fun _ => []) = Some ((t, l), None) /\
    ((exists p,
         find_daz_root t = Some p /\
         let g := place_out name include_promos merge (dir_at p t) in
         run_steps [g; g; g] (output_dir w) = (output_dir w1, e) /\
         (keep_temp = false -> e = None -> scratch w1 = scratch w))
     \/ (find_daz_root t = None /\ e = None /\
         output_dir w1 = output_dir w /\
         scratch w1 =
           (if keep_temp then scratch w ++ [(next_tmp w, t)] else scratch w))).
Proof.
  pose proof (unpacked_any fuel name archive (fun _ => [])) as Ha.
  pose proof (unpacked_any fuel name archive
                (fun t1 => [ContentsAfterFirst (map fst t1)])) as Hb.
  destruct (unpacked fuel name archive (fun _ => [])) as [[[t l] e0]|] eqn:Hu.
  - destruct Ha as (-> & _). intros H. exists t, l. split; [reflexivity|].
    destruct (find_daz_root t) as [p|] eqn:Hf.
    + left. exists p. split; [reflexivity|].
      destruct (@process_archive_follows fuel name archive include_promos
                  keep_temp merge t l p Hu Hf w) as (w3 & E3 & Ho3 & Hs3).
      rewrite E3 in H. injection H as <- <-. simpl.
      split; [|assumption].
      rewrite Ho3. now destruct (run_steps _ (output_dir w)).
    + right. revert H. unfold process_archive. simpl.
      destruct (unpacked fuel name archive
                  (fun t1 => [ContentsAfterFirst (map fst t1)]))
        as [[[t' l'] e']|]; [|discriminate].
      destruct Hb as (-> & l2 & Hb). injection Hb as <- _.
      rewrite Hf. intros [= <- <-]. now destruct keep_temp.
  - unfold process_archive. simpl.
    destruct (unpacked fuel name archive
                (fun t1 => [ContentsAfterFirst (map fst t1)]))
      as [[[t' l'] e']|]; [|discriminate].
    destruct Hb as (_ & l2 & Hb). discriminate.
Qed.

Lemma copy_into_other target include_promos daz_root out m :
  m <> target ->
  lookup m (fst (copy_into target include_promos daz_root out)) = lookup m out.
Proof.
  intros Hne. unfold copy_into.
  destruct (lookup target out) as [[c|sub]|]; simpl; try reflexivity;
    now apply lookup_set_other.
Qed.

Lemma place_out_other name include_promos merge daz_root out m :
  m <> target_of merge name ->
  (merge = false -> m <> (target_of merge name ++ ".zip")%string) ->
  lookup m (fst (place_out name include_promos merge daz_root out))
  = lookup m out.
Proof.
  intros Ht Hz. rewrite place_out_copy_into. simpl.
  fold (target_of merge name).
  pose proof (@copy_into_other (target_of merge name) include_promos
                daz_root out m Ht) as H.
  destruct (copy_into (target_of merge name) include_promos daz_root out)
    as [o [e|]]; simpl in *; [assumption|].
  destruct merge; [assumption|].
  unfold make_archive.
  destruct (lookup (target_of false name ++ ".zip")%string o) as [[c|d]|];
    try destruct (read_only c);
    simpl; try assumption; rewrite lookup_set_other; auto.
Qed.

Lemma process_archive_other fuel name archive include_promos keep_temp merge
  w w1 e m :
  process_archive fuel name archive include_promos keep_temp merge w
  = Some (w1, e) ->
  m <> target_of merge name ->
  (merge = false -> m <> (target_of merge name ++ ".zip")%string) ->
  lookup m (output_dir w1) = lookup m (output_dir w).
Proof.
  intros H Ht Hz.
  destruct (process_archive_cases _ _ _ _ _ _ _ H)
    as (t & l & _ & [(p & _ & Hr & _)|(_ & _ & -> & _)]); [|reflexivity].
  simpl in Hr.
  set (g := place_out name include_promos merge (dir_at p t)) in *.
  assert (Hg : forall o, lookup m (fst (g o)) = lookup m o)
    by (intros o; now apply place_out_other).
  rewrite run_steps_cons in Hr. pose proof (Hg (output_dir w)) as H1.
  destruct (g (output_dir w)) as [o1 [e1|]]; simpl in H1;
    [injection Hr as <- _; assumption|].
  rewrite run_steps_cons in Hr. pose proof (Hg o1) as H2.
  destruct (g o1) as [o2 [e2|]]; simpl in H2;
    [injection Hr as <- _; congruence|].
  rewrite run_steps_cons in Hr. pose proof (Hg o2) as H3.
  destruct (g o2) as [o3 [e3|]]; simpl in H3;
    [injection Hr as <- _; congruence|].
  unfold run_steps in Hr. simpl in Hr. injection Hr as <- _. congruence.
Qed.

(** X10: a run of the program in merge mode changes no entry of the
    output directory but [Content]; in per-archive mode it changes none
    but the normalized directories and zips of the archives it finds. *)
Theorem main_writes_targets_only fuel include_promos keep_temp merge input_dir
  w w1 e m :
  main fuel include_promos keep_temp merge input_dir w = Some (w1, e) ->
  (forall n a, In (n, a) input_dir ->
          m <> target_of merge n /\
          (merge = false -> m <> (target_of merge n ++ ".zip")%string)) ->
  lookup m (output_dir w1) = lookup m (output_dir w).
Proof.
  unfold main. intros H Hm.
  assert (Hall : forall archives w w1 e,
             incl archives input_dir ->
             process_all fuel include_promos keep_temp merge archives w
             = Some (w1, e) ->
             lookup m (output_dir w1) = lookup m (output_dir w)).
  { clear H w w1 e.
    induction archives as [|[n a] r IH]; intros w w1 e Hi; simpl.
    - now intros [= <- _].
    - destruct (process_archive fuel n a include_promos keep_temp merge w)
        as [[w2 [e2|]]|] eqn:E; [| |discriminate].
      + intros [= <- _].
        destruct (Hm n a (Hi _ (or_introl eq_refl))) as [H1 H2].
        eapply process_archive_other; eauto.
      + intros H.
        destruct (Hm n a (Hi _ (or_introl eq_refl))) as [H1 H2].
        rewrite (IH w2 w1 e); [eapply process_archive_other; eauto| |exact H].
        intros x Hx. apply Hi. now right. }
  assert (Hincl : incl (filter (fun '(n, f) => is_file f && is_archive_name n)
                          input_dir) input_dir)
    by (intros x Hx; now apply filter_In in Hx).
  destruct (filter (fun '(n, f) => is_file f && is_archive_name n) input_dir)
    as [|a r].
  - now injection H as <- _.
  - destruct (process_all fuel include_promos keep_temp merge (a :: r) w)
      as [[w2 [e2|]]|] eqn:E; [| |discriminate].
    + injection H as <- _. eapply Hall; eauto.
    + injection H as <- _. simpl. eapply Hall; eauto.
Qed.

Lemma main_writes_targets_only_witness :
  lookup "Library" (output_dir library_example_result)
  = Some (Dir [("mine.duf", File (Raw "m"))]).
Proof.
  assert (E : main 1 false false true merge_example_input
                (World [("Library", Dir [("mine.duf", File (Raw "m"))])] [] 0 [])
              = Some (library_example_result, None))
    by (vm_compute; reflexivity).
  apply (@main_writes_targets_only _ _ _ _ _ _ _ _ "Library") in E;
    [exact E|].
  intros n a Hin. split; discriminate.
Defined.

Lemma deliver_raises name include_promos keep_temp merge tmp t p w next o e :
  place_out name include_promos merge (dir_at p t) (output_dir w)
  = (o, Some e) ->
  exists l,
    deliver name include_promos keep_temp merge tmp t p w next
    = Some (leave tmp t (print l (with_output o w)), Some e).
Proof.
  unfold deliver, place_out.
  destruct (place name include_promos merge (dir_at p t) (output_dir w))
    as [[o' l] [e'|]]; intros [= <- <-]. eauto.
Qed.

Lemma deliver_returns name include_promos keep_temp merge tmp t p w next o :
  place_out name include_promos merge (dir_at p t) (output_dir w)
  = (o, None) ->
  exists l,
    deliver name include_promos keep_temp merge tmp t p w next
    = next (if keep_temp then leave tmp t (print l (with_output o w))
            else print l (with_output o w)).
Proof.
  unfold deliver, place_out.
  destruct (place name include_promos merge (dir_at p t) (output_dir w))
    as [[o' l] [e'|]]; intros [= <-]. eauto.
Qed.

Lemma copy_into_wf target include_promos daz_root out :
  wf out = true ->
  wf (fst (copy_into target include_promos daz_root out)) = true.
Proof.
  intros Hw. unfold copy_into.
  pose proof (wf_listing out target Hw) as Hl.
  destruct (lookup target out) as [[c|sub]|] eqn:E; simpl in *.
  - assumption.
  - apply wf_set; [assumption|]. now apply copy_daz_root_wf.
  - apply wf_set; [assumption|]. now apply copy_daz_root_wf.
Qed.

Lemma place_out_wf name include_promos merge daz_root out o :
  wf out = true ->
  place_out name include_promos merge daz_root out = (o, None) ->
  wf o = true.
Proof.
  intros Hw. rewrite place_out_copy_into. simpl.
  pose proof (@copy_into_wf
                (if merge then "Content"
                 else (stem name ++ "_normalized")%string)
                include_promos daz_root out Hw) as Hc.
  destruct (copy_into _ include_promos daz_root out) as [o2 [e2|]];
    [discriminate|]. simpl in Hc.
  destruct merge; [now intros [= <-]|].
  unfold make_archive.
  destruct (lookup _ o2) as [[c|d]|]; try destruct (read_only c);
    try discriminate; intros [= <-]; now apply wf_set.
Qed.

Section FoundRoot.

Variables (fuel : nat) (name : string) (archive : node).
Variables (include_promos keep_temp merge : bool).
Variables (t : entries) (l0 : list event) (p : path).
Hypothesis Hunpacked :
  unpacked fuel name archive (fun _ => []) = Some ((t, l0), None).
Hypothesis Hfound : find_daz_root t = Some p.

Let g : step := place_out name include_promos merge (dir_at p t).

Lemma first_unpacked :
  exists l,
    unpacked fuel name archive (fun t1 => [ContentsAfterFirst (map fst t1)])
    = Some ((t, l), None).
Proof.
  pose proof (unpacked_any fuel name archive
                (fun t1 => [ContentsAfterFirst (map fst t1)])) as Hb.
  destruct (unpacked fuel name archive
              (fun t1 => [ContentsAfterFirst (map fst t1)]))
    as [[[t' l'] e']|]; [|congruence].
  destruct Hb as (-> & l2 & Hb). rewrite Hunpacked in Hb.
  injection Hb as <- _. eauto.
Qed.

(** X12: an exception of the copy is not caught: it ends
    [process_archive] in its first block, the scratch directory stays on
    disk whether it was to be kept or not, and the archives after this
    one are not processed. *)
Theorem copy_exception_ends_batch w o e :
  g (output_dir w) = (o, Some e) ->
  exists w1,
    process_archive fuel name archive include_promos keep_temp merge w
    = Some (w1, Some e) /\
    output_dir w1 = o /\
    scratch w1 = scratch w ++ [(next_tmp w, t)] /\
    forall rest,
      process_all fuel include_promos keep_temp merge ((name, archive) :: rest) w
      = Some (w1, Some e).
Proof.
  intros Hg. destruct first_unpacked as [l Hl].
  assert (E : exists w1,
             process_archive fuel name archive include_promos keep_temp merge w
             = Some (w1, Some e) /\
             output_dir w1 = o /\
             scratch w1 = scratch w ++ [(next_tmp w, t)]).
  { unfold process_archive. simpl. rewrite Hl, Hfound.
    match goal with
    | |- context [deliver _ _ _ _ ?tmp _ _ ?w0 ?next] =>
        destruct (@deliver_raises name include_promos keep_temp merge tmp t p
                    w0 next o e Hg) as [l' ->]
    end.
    eexists. split; [reflexivity|]. split; reflexivity. }
  destruct E as (w1 & E & Ho & Hs). exists w1. repeat split; try assumption.
  intros rest. simpl. now rewrite E.
Qed.

Lemma third_block_returns w o :
  g (output_dir w) = (o, None) ->
  exists w1,
    third_block fuel name archive include_promos keep_temp merge w
    = Some (w1, None) /\
    output_dir w1 = o /\ next_tmp w1 = 1 + next_tmp w /\
    scratch w1 =
      (if keep_temp then scratch w ++ [(next_tmp w, t)] else scratch w).
Proof.
  intros Hg. unfold third_block. simpl. rewrite Hunpacked, Hfound. simpl.
  match goal with
  | |- context [deliver _ _ _ _ ?tmp _ _ ?w0 ?next] =>
      destruct (@deliver_returns name include_promos keep_temp merge tmp t p
                  w0 next o Hg) as [l' ->]
  end.
  eexists. split; [reflexivity|]. now destruct keep_temp.
Qed.

Lemma second_block_returns w o :
  writable t = true ->
  wf (output_dir w) = true -> g (output_dir w) = (o, None) ->
  exists w1,
    second_block fuel name archive include_promos keep_temp merge w
    = Some (w1, None) /\
    output_dir w1 = o /\ next_tmp w1 = 2 + next_tmp w /\
    scratch w1 =
      (if keep_temp
       then scratch w ++ [(next_tmp w, t); (1 + next_tmp w, t)]
       else scratch w).
Proof.
  intros Hok Hw Hg. unfold second_block. simpl.
  rewrite Hunpacked, Hfound. simpl.
  match goal with
  | |- context [deliver _ _ _ _ ?tmp _ _ ?w0 ?next] =>
      destruct (@deliver_returns name include_promos keep_temp merge tmp t p
                  w0 next o Hg) as [l' ->]
  end.
  pose proof (@place_out_again _ _ _ _ _ _ (writable_dir_at p t Hok) Hw Hg)
    as Hg2. fold g in Hg2.
  match goal with
  | |- context [third_block _ _ _ _ _ _ ?w0] =>
      destruct (@third_block_returns w0 o) as (w1 & E & Ho & Hn & Hs)
  end.
  - now destruct keep_temp.
  - exists w1. rewrite E, Ho, Hn, Hs. split; [reflexivity|].
    destruct keep_temp; simpl; repeat split; try reflexivity.
    now rewrite <- app_assoc.
Qed.

(** X13: with a content root, no read-only file in the unpacked tree
    and a copy that goes through, [process_archive] makes three scratch
    directories, each with the same unpacked tree, and ends normally
    with the output directory of the first copy; all three stay on disk
    when they are to be kept. *)
Theorem process_archive_three_scratch_dirs w o :
  writable t = true ->
  wf (output_dir w) = true -> g (output_dir w) = (o, None) ->
  exists w1,
    process_archive fuel name archive include_promos keep_temp merge w
    = Some (w1, None) /\
    output_dir w1 = o /\ next_tmp w1 = 3 + next_tmp w /\
    (keep_temp = true ->
     scratch w1 =
       scratch w ++
       [(next_tmp w, t); (1 + next_tmp w, t); (2 + next_tmp w, t)]).
Proof.
  intros Hok Hw Hg. destruct first_unpacked as [l Hl].
  unfold process_archive. simpl. rewrite Hl, Hfound.
  match goal with
  | |- context [deliver _ _ _ _ ?tmp _ _ ?w0 ?next] =>
      destruct (@deliver_returns name include_promos keep_temp merge tmp t p
                  w0 next o Hg) as [l' ->]
  end.
  pose proof (@place_out_again _ _ _ _ _ _ (writable_dir_at p t Hok) Hw Hg)
    as Hg2. fold g in Hg2.
  pose proof (@place_out_wf _ _ _ _ _ _ Hw Hg) as Hwo.
  match goal with
  | |- context [second_block _ _ _ _ _ _ ?w0] =>
      destruct (@second_block_returns w0 o Hok) as (w1 & E & Ho & Hn & Hs)
  end.
  - now destruct keep_temp.
  - now destruct keep_temp.
  - exists w1. rewrite E, Ho, Hn, Hs. split; [reflexivity|].
    split; [reflexivity|].
    destruct keep_temp; simpl; split; try reflexivity; try discriminate.
    intros _. now rewrite <- app_assoc.
Qed.

End FoundRoot.

Lemma copy_exception_ends_batch_witness :
  exists w1,
    process_archive 1 "set.zip"
      (File (Packed Zip [("Runtime", Dir [("a.duf", File (Raw "1"))])] None))
      false false true (World [("Content", File (Raw "a file"))] [] 0 [])
    = Some (w1, Some "File exists") /\
    output_dir w1 = [("Content", File (Raw "a file"))] /\
    scratch w1 = [] ++ [(0, [("Runtime", Dir [("a.duf", File (Raw "1"))])])] /\
    forall rest,
      process_all 1 false false true
        (("set.zip",
          File (Packed Zip [("Runtime", Dir [("a.duf", File (Raw "1"))])] None))
           :: rest)
        (World [("Content", File (Raw "a file"))] [] 0 [])
      = Some (w1, Some "File exists").
Proof.
  apply (@copy_exception_ends_batch 1 "set.zip"
           (File (Packed Zip [("Runtime", Dir [("a.duf", File (Raw "1"))])] None))
           false false true
           [("Runtime", Dir [("a.duf", File (Raw "1"))])]
           [NoMoreArchives 0] []
           eq_refl eq_refl
           (World [("Content", File (Raw "a file"))] [] 0 [])
           [("Content", File (Raw "a file"))] "File exists").
  reflexivity.
Defined.

Lemma process_archive_three_scratch_dirs_witness :
  exists w1,
    process_archive 1 "set.zip"
      (File (Packed Zip [("Runtime", Dir [("a.duf", File (Raw "1"))])] None))
      false true false (World [] [(7, [])] 8 [])
    = Some (w1, None) /\
    output_dir w1 =
      [("set_normalized", Dir [("Runtime", Dir [("a.duf", File (Raw "1"))])]);
       ("set_normalized.zip",
        File (Packed Zip [("Runtime", Dir [("a.duf", File (Raw "1"))])] None))] /\
    next_tmp w1 = 3 + 8 /\
    (true = true ->
     scratch w1 =
       [(7, [])] ++
       [(8, [("Runtime", Dir [("a.duf", File (Raw "1"))])]);
        (1 + 8, [("Runtime", Dir [("a.duf", File (Raw "1"))])]);
        (2 + 8, [("Runtime", Dir [("a.duf", File (Raw "1"))])])]).
Proof.
  apply (@process_archive_three_scratch_dirs 1 "set.zip"
           (File (Packed Zip [("Runtime", Dir [("a.duf", File (Raw "1"))])] None))
           false true false
           [("Runtime", Dir [("a.duf", File (Raw "1"))])]
           [NoMoreArchives 0] []
           eq_refl eq_refl (World [] [(7, [])] 8 [])); reflexivity.
Defined.

(** ** The normalized output *)

Lemma string_append_assoc a b c :
  ((a ++ b) ++ c)%string = (a ++ (b ++ c))%string.
Proof. induction a as [|x a IH]; simpl; [reflexivity|now rewrite IH]. Qed.

(** The last of three runs of a step that all ended normally. *)
Lemma run3_last (g : step) out o :
  run_steps [g; g; g] out = (o, None) -> exists o2, g o2 = (o, None).
Proof.
  rewrite run_steps_cons. destruct (g out) as [o1 [e1|]]; [discriminate|].
  rewrite run_steps_cons. destruct (g o1) as [o2 [e2|]]; [discriminate|].
  rewrite run_steps_cons. destruct (g o2) as [o3 [e3|]] eqn:E3; [discriminate|].
  unfold run_steps. simpl. intros [= <-]. eauto.
Qed.

(** The names of the content folders have no extension. *)

Lemma lower_ascii_dot c :
  Ascii.eqb (lower_ascii c) "."%char = Ascii.eqb c "."%char.
Proof. destruct c as [[] [] [] [] [] [] [] []]; reflexivity. Qed.

Lemma rfind_dot_lower s : rfind_dot (lower s) = rfind_dot s.
Proof.
  induction s as [|c s IH]; simpl; [reflexivity|].
  rewrite IH. destruct (rfind_dot s); [reflexivity|].
  now rewrite lower_ascii_dot.
Qed.

Lemma length_lower s : String.length (lower s) = String.length s.
Proof. induction s as [|c s IH]; simpl; [reflexivity|now rewrite IH]. Qed.

Lemma substring_lower s :
  forall i k, substring i k (lower s) = lower (substring i k s).
Proof.
  induction s as [|c s IH]; intros [|i] [|k]; simpl; try reflexivity.
  - now rewrite IH.
  - apply IH.
  - apply IH.
Qed.

Lemma suffix_lower s : suffix (lower s) = lower (suffix s).
Proof.
  unfold suffix. rewrite rfind_dot_lower, length_lower.
  destruct (rfind_dot s) as [i|]; [|reflexivity].
  destruct ((0 <? i) && (i <? String.length s - 1)); [|reflexivity].
  apply substring_lower.
Qed.

Lemma daz_folder_not_promo n :
  In (lower n) (map lower DAZ_FOLDERS) -> is_promo_name n = false.
Proof.
  unfold is_promo_name. rewrite <- suffix_lower. simpl.
  intros [H|[H|[H|[H|[H|[H|[]]]]]]]; rewrite <- H; reflexivity.
Qed.

Lemma copy_entry_dir_lookup ms n dst o :
  copy_entry (Dir ms) n dst = (o, None) ->
  exists s, lookup n o = Some (Dir s).
Proof.
  simpl. destruct (lookup n dst) as [[c|sub]|]; [discriminate| |];
    split_loop d e; intros [= <- _]; rewrite lookup_set_same; eauto.
Qed.

Lemma copy_daz_root_keeps_folder source_root include_promos :
  forall dst d,
    qualifies source_root ->
    copy_daz_root source_root dst include_promos = (d, None) ->
    qualifies d.
Proof.
  intros dst d (n & sub & Hin & Hn). revert dst.
  induction source_root as [|[m x] r IH]; intros dst; [destruct Hin|].
  rewrite copy_daz_root_cons.
  destruct Hin as [E|Hin].
  - injection E as -> ->.
    rewrite (daz_folder_not_promo n Hn), andb_false_r.
    destruct (copy_entry (Dir sub) n dst) as [o1 [e|]] eqn:Ec; [discriminate|].
    destruct (copy_entry_dir_lookup _ _ _ Ec) as [s Hs].
    intros Hr.
    pose proof (copy_daz_root_keeps_shape r include_promos o1) as Hg.
    rewrite Hr in Hg. simpl in Hg.
    destruct (shape_le_lookup n Hg Hs) as (s' & Hs' & Hle).
    destruct (shape_le_dir_inv Hle) as [s2 ->].
    exists n, s2. split; [now apply lookup_In|assumption].
  - destruct (negb include_promos && is_promo_name m); [now apply IH|].
    destruct (copy_entry x m dst) as [o1 [e|]]; [discriminate|].
    now apply IH.
Qed.

(** X15: when [process_archive] found a content root and ended
    normally, the directory it wrote to ([Content], or the normalized
    directory of the archive) has a content folder at its top level:
    [find_daz_root] on it returns the directory itself. *)
Theorem output_root_is_on_top fuel name archive include_promos keep_temp merge
  w w1 t l p :
  wf (output_dir w) = true ->
  unpacked fuel name archive (fun _ => []) = Some ((t, l), None) ->
  find_daz_root t = Some p ->
  process_archive fuel name archive include_promos keep_temp merge w
  = Some (w1, None) ->
  find_daz_root (dir_at [target_of merge name] (output_dir w1)) = Some [].
Proof.
  intros Hw Hu Hf H.
  destruct (find_daz_root_leads t (unpacked_wf _ _ _ _ Hu) Hf)
    as (r & _ & Hr & Hq).
  destruct (process_archive_cases _ _ _ _ _ _ _ H)
    as (t' & l' & Hu' & [(p' & Hf' & Hrun & _)|(Hf' & _)]).
  2:{ rewrite Hu in Hu'. injection Hu' as <- _. congruence. }
  rewrite Hu in Hu'. injection Hu' as <- _.
  rewrite Hf in Hf'. injection Hf' as <-.
  apply run3_last in Hrun. destruct Hrun as [o0 Hrun].
  rewrite place_out_copy_into in Hrun. simpl in Hrun.
  fold (target_of merge name) in Hrun.
  set (target := target_of merge name) in *.
  assert (Hd : exists o2 d,
             copy_into target include_promos (dir_at p t) o0
             = (o2, None) /\ dir_at [target] o2 = d /\ qualifies d).
  { unfold copy_into in *.
    destruct (lookup target o0) as [[c|sub]|] eqn:E;
      [discriminate| |];
      match type of Hrun with
      | context [copy_daz_root ?r0 ?d0 ?b] =>
          destruct (copy_daz_root r0 d0 b) as [d [e|]] eqn:Ec
      end; simpl in Hrun; try discriminate;
      exists (set target (Dir d) o0), d;
      (split; [reflexivity|]);
      (split; [unfold dir_at; simpl; now rewrite lookup_set_same|]);
      rewrite Hr in Ec; eapply copy_daz_root_keeps_folder; eauto. }
  destruct Hd as (o2 & d & Hc & Hd & Hqd). rewrite Hc in Hrun.
  assert (Hfinal : dir_at [target] (output_dir w1) = d).
  { destruct merge; [now injection Hrun as <-|].
    unfold make_archive in Hrun.
    assert (Hne : (target ++ ".zip")%string <> target)
      by (apply append_longer; discriminate).
    destruct (lookup (target ++ ".zip")%string o2) as [[c|dd]|];
      try destruct (read_only c);
      try discriminate; injection Hrun as <-; rewrite <- Hd;
      unfold dir_at; simpl; now rewrite lookup_set_other by congruence. }
  rewrite Hfinal. unfold find_daz_root.
  apply has_daz_folder_qualifies in Hqd. now rewrite Hqd.
Qed.

Lemma output_root_is_on_top_witness :
  find_daz_root
    (dir_at [target_of false "pack.v2.ZIP"]
       (output_dir normalized_example_result))
  = Some [].
Proof.
  apply (@output_root_is_on_top 2 "pack.v2.ZIP"
           normalized_example_archive false false false
           (World [] [] 0 []) normalized_example_result
           [("promo.jpg", File (Raw "p"));
            ("My Pack", Dir [("readme.pdf", File (Raw "r"));
                             ("data", Dir []);
                             ("People", Dir [("g.duf", File (Raw "g"))])])]
           [PassFound 0 1; ExtractingNested ["inner.rar"]; NoMoreArchives 1]
           ["My Pack"]); vm_compute; reflexivity.
Defined.

(** ** More on the entry point and the extension tests *)

(** X16: an entry of the input directory that is a directory, even
    one with the name of an archive, or that has no archive extension
    is ignored: the run is the run without it. *)
Theorem main_ignores_other_entries fuel include_promos keep_temp merge
  before n x after w :
  is_dir x = true \/ is_archive_name n = false ->
  main fuel include_promos keep_temp merge (before ++ (n, x) :: after) w
  = main fuel include_promos keep_temp merge (before ++ after) w.
Proof.
  intros H. unfold main. rewrite !filter_app. simpl.
  assert (E : is_file x && is_archive_name n = false).
  { destruct H as [H| ->]; [|apply andb_false_r].
    destruct x; [discriminate|reflexivity]. }
  now rewrite E.
Qed.

Lemma main_ignores_other_entries_witness :
  main 1 false false true
    ([] ++ ("models.zip", Dir [("a.duf", File (Raw "1"))]) :: merge_example_input)
    (World [] [] 0 [])
  = main 1 false false true ([] ++ merge_example_input) (World [] [] 0 []).
Proof.
  apply (@main_ignores_other_entries 1 false false true []
           "models.zip" (Dir [("a.duf", File (Raw "1"))])).
  left. reflexivity.
Defined.

(** X17: the extension tests do not look at the case of the name: two
    names that are the same in lower case are both archives or both not,
    and both promotional or both not. *)
Theorem extension_tests_ignore_case n m :
  lower n = lower m ->
  is_archive_name n = is_archive_name m /\ is_promo_name n = is_promo_name m.
Proof.
  intros H. unfold is_archive_name, is_promo_name.
  now rewrite <- !suffix_lower, H.
Qed.

Lemma extension_tests_ignore_case_witness :
  is_archive_name "Pack.Zip" = is_archive_name "pACK.zIP" /\
  is_promo_name "Pack.Zip" = is_promo_name "pACK.zIP".
Proof.
  apply (@extension_tests_ignore_case "Pack.Zip" "pACK.zIP"). reflexivity.
Defined.

(** ** The second searches of the later blocks *)

Lemma node_at_concat p :
  forall x y q, node_at p x = Some y -> node_at (p ++ q) x = node_at q y.
Proof.
  induction p as [|n p IH]; intros x y q; simpl.
  - now intros [= ->].
  - destruct x as [c|es]; [discriminate|].
    destruct (lookup n es) as [z|]; [|discriminate]. apply IH.
Qed.

Lemma first_root_below_none l :
  (forall p sub, In (p, Dir sub) l -> find_daz_root sub = None) ->
  first_root_below l = None.
Proof.
  induction l as [|[p x] r IH]; intros H; simpl; [reflexivity|].
  destruct x as [c|sub].
  - apply IH. intros q s Hq. apply (H q s). now right.
  - rewrite (H p sub) by now left.
    apply IH. intros q s Hq. apply (H q s). now right.
Qed.

Lemma nothing_below root p sub :
  wf root = true ->
  find_daz_root root = None ->
  node_at p (Dir root) = Some (Dir sub) ->
  find_daz_root sub = None.
Proof.
  intros Hw Hnone Hp.
  destruct (find_daz_root sub) as [q|] eqn:F; [|reflexivity].
  assert (Hws : wf sub = true).
  { pose proof (wf_dir_at p root Hw) as H. unfold dir_at in H.
    now rewrite Hp in H. }
  destruct (find_daz_root_leads sub Hws F) as (d & Hd & _ & Hq).
  exfalso. apply (@find_daz_root_none_nowhere root (p ++ q) d Hnone);
    [|assumption].
  now rewrite (node_at_concat p _ q Hp).
Qed.

(** X18: the searches the second and the third block add after
    [find_daz_root] (through every directory of the scratch tree, and
    through the directories of its top level) find nothing that
    [find_daz_root] on the scratch tree did not find. *)
Theorem later_searches_find_nothing_new fuel name archive between t l e :
  unpacked fuel name archive between = Some ((t, l), e) ->
  or_else (find_daz_root t) (first_root_below (rglob t)) = find_daz_root t /\
  or_else (find_daz_root t)
    (first_root_below (children [] (filter (fun '(_, x) => is_dir x) t)))
  = find_daz_root t.
Proof.
  intros Hu. pose proof (unpacked_wf _ _ _ _ Hu) as Hw.
  destruct (find_daz_root t) as [p|] eqn:F; [split; reflexivity|].
  simpl. split; apply first_root_below_none; intros p sub Hin.
  - destruct (@rglob_sound t p (Dir sub) Hw Hin) as [_ Hp].
    eapply nothing_below; eauto.
  - unfold children in Hin. apply in_map_iff in Hin.
    destruct Hin as ([n y] & E & Hin). injection E as <- ->.
    apply filter_In in Hin. destruct Hin as [Hin _].
    apply (@nothing_below t ([] ++ [n]) sub Hw F). simpl.
    now rewrite (@wf_In_lookup t n (Dir sub) Hw Hin).
Qed.

Lemma later_searches_find_nothing_new_witness :
  or_else (find_daz_root [("docs", Dir [("Runtime", File (Raw "f"))])])
    (first_root_below (rglob [("docs", Dir [("Runtime", File (Raw "f"))])]))
  = find_daz_root [("docs", Dir [("Runtime", File (Raw "f"))])] /\
  or_else (find_daz_root [("docs", Dir [("Runtime", File (Raw "f"))])])
    (first_root_below
       (children []
          (filter (fun '(_, x) => is_dir x)
             [("docs", Dir [("Runtime", File (Raw "f"))])])))
  = find_daz_root [("docs", Dir [("Runtime", File (Raw "f"))])].
Proof.
  apply (@later_searches_find_nothing_new 1 "d.zip"
           (File (Packed Zip [("docs", Dir [("Runtime", File (Raw "f"))])] None))
           (fun _ => []) _ [NoMoreArchives 0] None).
  reflexivity.
Defined.
